(** * PageRank: the transition model and the two estimators of [pagerank.py]

    A shallow embedding of [transition_model], [sample_pagerank] and
    [iterate_pagerank].

    Modelling conventions.
    - A corpus is a Python [dict] from page to [set] of pages: a
      [gmap K (gset K)] over any countable type [K] of page identifiers.
      Distributions and rank assignments are [dict]s from page to number:
      [gmap K Q].  A loop over a [dict] or a [set] visits the entries in
      the order of [map_to_list] or [elements]; no statement below depends
      on that order.
    - Python floats are modelled by exact rationals ([Q]).  Every statement
      below is therefore a statement about the program under exact
      arithmetic; rounding is not modelled.
    - A subscript [d[k]] on a missing key raises [KeyError], a division by
      zero raises [ZeroDivisionError]: the functions return [option], with
      [None] for a raised exception.
    - The [while] loop of [iterate_pagerank] is driven by a fuel argument
      that bounds the number of rounds; [None] also stands for "fuel
      exhausted".
    - The pseudo-random source is an explicit stream [rng : nat -> Q] of
      draws; statements about "every outcome of the random draws" quantify
      over every stream.
    - [crawl] and [main] read the corpus from disk and print the ranks;
      they are modelled with the disk as an argument, printing as a list
      of lines, and the library's regular expression matcher and float
      formatting as parameters. *)

From Stdlib Require Import QArith Qabs Qround Lqa.
From stdpp Require Import gmap strings list fin_maps.
From stdpp Require Import pretty sorting.

Local Open Scope Q_scope.

(** [len(x)] used as a number. *)
Definition Qn (n : nat) : Q := inject_Z (Z.of_nat n).

(** The sum of a list of numbers. *)
Definition Qsum (l : list Q) : Q := foldr Qplus 0 l.

(** The tolerance of the convergence test, [0.001]. *)
Definition tolerance : Q := 1 # 1000.

(** The module constants [DAMPING = 0.85] and [SAMPLES = 10000]. *)
Definition DAMPING : Q := 85 # 100.
Definition SAMPLES : Z := 10000.

Section pagerank.
Context {K : Type} `{!EqDecision K} `{!Countable K}.

Implicit Types (corpus : gmap K (gset K)) (page link : K).
Implicit Types (dist page_rank calculated_pr : gmap K Q).

(** The keys of a dictionary in its iteration order. *)
Definition keys {V} (m : gmap K V) : list K := (map_to_list m).*1.

(** The sum of the values of a dictionary. *)
Definition total (m : gmap K Q) : Q := Qsum ((map_to_list m).*2).

(** ** Link graphs *)

(** Every link target is itself a page of the corpus. *)
Definition closed_universe corpus : Prop :=
  map_Forall (λ _ links, links ⊆ dom corpus) corpus.

(** No page links to itself. *)
Definition no_self_links corpus : Prop :=
  map_Forall (λ page links, page ∉ links) corpus.

(** ** Loops that may raise *)

(** [for x in xs: acc = body(acc, x)], stopping at the first exception. *)
Fixpoint for_each {A B} (body : A → B → option A) (acc : A) (xs : list B)
  : option A :=
  match xs with
  | [] => Some acc
  | x :: xs => acc ← body acc x; for_each body acc xs
  end.

(** ** [transition_model] *)

(** [for link in corpus: dist[link] = v] *)
Definition assign_each {V} (v : V) (ks : list K) (m : gmap K V)
  : gmap K V :=
  foldl (λ m link, <[link := v]> m) m ks.

(** [dist[link] += v]; reading [dist[link]] raises on a missing key. *)
Definition add_at (v : Q) dist link : option (gmap K Q) :=
  old ← dist !! link; Some (<[link := old + v]> dist).

Definition transition_model corpus page (damping_factor : Q)
  : option (gmap K Q) :=
  links ← corpus !! page;
  if decide (size links = 0%nat) then
    Some (assign_each (1 / Qn (size corpus)) (keys corpus) ∅)
  else
    let dist :=
      assign_each ((1 - damping_factor) / Qn (size corpus)) (keys corpus) ∅ in
    for_each (add_at (damping_factor / Qn (size links))) dist (elements links).

(** The probability [transition_model] gives to page [q] when the current
    page has outgoing links [links]. *)
Definition transition_value corpus (links : gset K) (d : Q) (q : K) : Q :=
  if decide (links = ∅) then 1 / Qn (size corpus)
  else if decide (q ∈ links)
       then (1 - d) / Qn (size corpus) + d / Qn (size links)
       else (1 - d) / Qn (size corpus).

(** ** The random source

    [random.choice] and [random.choices] are library functions; they are
    modelled after CPython's [random.py], with the uniform draw [u] passed
    in.  One element of the stream of draws stands for one library call:
    the pages a call can return are modelled, not the number of random bits
    the library consumes for it. *)

(** [random.choice(seq)]: [seq[randbelow(len(seq))]]; raises on an empty
    sequence. *)
Definition choice (u : Q) (seq : list K) : option K :=
  seq !! (Z.to_nat (Qfloor (u * Qn (length seq))) `mod` length seq)%nat.

(** [itertools.accumulate(weights)]: the running sums. *)
Fixpoint running_sums (acc : Q) (weights : list Q) : list Q :=
  match weights with
  | [] => []
  | w :: weights => (acc + w) :: running_sums (acc + w) weights
  end.

Definition accumulate (weights : list Q) : list Q :=
  match weights with
  | [] => []
  | w :: weights => w :: running_sums w weights
  end.

(** [bisect.bisect_right(a, x, 0, hi)] on an ascending list: how many of
    the first [hi] entries are at most [x]. *)
Fixpoint bisect (a : list Q) (x : Q) (hi : nat) : nat :=
  match hi, a with
  | S hi, c :: a => if Qle_bool c x then S (bisect a x hi) else 0%nat
  | _, _ => 0%nat
  end.

(** [random.choices(population, weights, k=1)[0]]. *)
Definition choices (u : Q) (population : list K) (weights : list Q)
  : option K :=
  let cum_weights := accumulate weights in
  if decide (length cum_weights ≠ length population) then None else
  total ← last cum_weights;
  if Qle_bool total 0 then None else
  let hi := (length population - 1)%nat in
  population !! bisect cum_weights (u * total) hi.

(** ** [sample_pagerank] *)

(** The variables of the sampling loop; [drawn] counts the calls made to
    the random source so far. *)
Record sampler := Sampler {
  visits : gmap K Z;
  sample_page : K;
  drawn : nat
}.

(** One pass through the body of [for i in range(1, n)]. *)
Definition sample_step corpus (damping_factor : Q) (rng : nat → Q)
    (st : sampler) : option sampler :=
  count ← visits st !! sample_page st;
  let page_rank := <[sample_page st := (count + 1)%Z]> (visits st) in
  page_dist ← transition_model corpus (sample_page st) damping_factor;
  next ← choices (rng (drawn st)) (keys page_dist) (map_to_list page_dist).*2;
  Some (Sampler page_rank next (S (drawn st))).

Fixpoint sample_loop corpus (damping_factor : Q) (rng : nat → Q)
    (steps : nat) (st : sampler) : option sampler :=
  match steps with
  | O => Some st
  | S steps =>
      st ← sample_step corpus damping_factor rng st;
      sample_loop corpus damping_factor rng steps st
  end.

(** [for key in page_rank.keys(): page_rank[key] /= n] *)
Definition normalize (n : Z) (page_rank : gmap K Z) : option (gmap K Q) :=
  if decide (n = 0%Z ∧ page_rank ≠ ∅) then None
  else Some ((λ count, inject_Z count / inject_Z n) <$> page_rank).

Definition sample_pagerank corpus (damping_factor : Q) (n : Z)
    (rng : nat → Q) : option (gmap K Q) :=
  let page_rank := assign_each 0%Z (keys corpus) ∅ in
  sample_page ← choice (rng 0%nat) (keys corpus);
  st ← sample_loop corpus damping_factor rng (Z.to_nat (n - 1))
         (Sampler page_rank sample_page 1);
  normalize n (visits st).

(** ** [iterate_pagerank] *)

(** The body of [for page in corpus] for one [(page, corpus[page])]. *)
Definition inner_step (N : nat) page_rank (current_page : K) (sum : Q)
    (item : K * gset K) : option Q :=
  let '(page, links) := item in
  sum ← (if decide (current_page ∈ links) then
           rank ← page_rank !! page;
           let NumLinks := size links in
           Some (sum + rank / Qn NumLinks)
         else Some sum);
  if decide (links = ∅) then
    rank ← page_rank !! page; Some (sum + rank / Qn N)
  else Some sum.

(** The value stored in [calculated_pr[current_page]].  ([random_choice]
    is computed once before the loop in the source; it is the same
    [(1 - D) / N] in every round.) *)
Definition new_rank corpus (D : Q) page_rank (current_page : K) : option Q :=
  let N := size corpus in
  let random_choice := (1 - D) / Qn N in
  sum ← for_each (inner_step N page_rank current_page) 0 (map_to_list corpus);
  let d_times_sum := D * sum in
  Some (random_choice + d_times_sum).

(** The first [for current_page in page_rank] loop: it reads [page_rank]
    and writes [calculated_pr]. *)
Definition calculate corpus (D : Q) page_rank calculated_pr
  : option (gmap K Q) :=
  for_each (λ calculated_pr current_page,
              rank ← new_rank corpus D page_rank current_page;
              Some (<[current_page := rank]> calculated_pr))
           calculated_pr (keys page_rank).

(** [abs(old - new) > 0.001] *)
Definition exceeds (old new : Q) : bool :=
  negb (Qle_bool (Qabs (old - new)) tolerance).

(** The second [for current_page in page_rank] loop: the convergence test,
    copying [calculated_pr] into [page_rank] as it goes. *)
Definition compare_and_store calculated_pr page_rank
  : option (bool * gmap K Q) :=
  for_each (λ '(condition, page_rank) current_page,
              old ← page_rank !! current_page;
              new ← calculated_pr !! current_page;
              Some (if exceeds old new then true else condition,
                    <[current_page := new]> page_rank))
           (false, page_rank) (keys page_rank).

(** One pass through the body of [while condition]. *)
Definition round corpus (D : Q) (st : gmap K Q * gmap K Q)
  : option (bool * (gmap K Q * gmap K Q)) :=
  let '(page_rank, calculated_pr) := st in
  calculated_pr ← calculate corpus D page_rank calculated_pr;
  '(condition, page_rank) ← compare_and_store calculated_pr page_rank;
  Some (condition, (page_rank, calculated_pr)).

(** [while condition: ...; return page_rank], for at most [fuel] rounds. *)
Fixpoint while_condition corpus (D : Q) (fuel : nat) (condition : bool)
    (st : gmap K Q * gmap K Q) : option (gmap K Q) :=
  if condition then
    match fuel with
    | O => None
    | S fuel =>
        '(condition, st) ← round corpus D st;
        while_condition corpus D fuel condition st
    end
  else Some st.1.

Definition iterate_pagerank (fuel : nat) corpus (damping_factor : Q)
  : option (gmap K Q) :=
  let N := size corpus in
  if decide (N = 0%nat) then None else
  let page_rank := assign_each (1 / Qn N) (keys corpus) ∅ in
  while_condition corpus damping_factor fuel true (page_rank, ∅).

(** ** Quantities the claims speak about *)

(** The sum of a list of integers, and the total of the visit counters. *)
Definition Zsum (l : list Z) : Z := foldr Z.add 0%Z l.

Definition visits_total (page_rank : gmap K Z) : Z :=
  Zsum (map_to_list page_rank).*2.

(** The state in which [sample_pagerank] enters its loop, after the draw of
    the starting page [start]. *)
Definition sample_init corpus (start : K) : sampler :=
  Sampler (assign_each 0%Z (keys corpus) ∅) start 1.

(** [page_rank[page]] as a number. *)
Definition rank_of page_rank page : Q := default 0 (page_rank !! page).

(** The recurrence of the iterative estimator, as the specification words
    it: the sum, over the pages [Q] that link to [P], of
    [rank(Q) / outDegree(Q)]; the sum, over the pages [Q] without outgoing
    links, of [rank(Q) / N]; and the new rank of [P] built from both. *)
Definition linkers_sum corpus page_rank (P : K) : Q :=
  Qsum ((λ item : K * gset K, rank_of page_rank item.1 / Qn (size item.2))
          <$> filter (λ item : K * gset K, P ∈ item.2) (map_to_list corpus)).

Definition dangling_sum corpus page_rank : Q :=
  Qsum ((λ item : K * gset K, rank_of page_rank item.1 / Qn (size corpus))
          <$> filter (λ item : K * gset K, item.2 = ∅) (map_to_list corpus)).

Definition rank_recurrence corpus (d : Q) page_rank (P : K) : Q :=
  (1 - d) / Qn (size corpus)
  + d * linkers_sum corpus page_rank P
  + d * dangling_sum corpus page_rank.

(** Some page's rank differs by more than the tolerance between two
    snapshots. *)
Definition changed (old new : gmap K Q) : Prop :=
  ∃ P o n, old !! P = Some o ∧ new !! P = Some n ∧ tolerance < Qabs (o - n).

(** The state in which [iterate_pagerank] enters its loop (on a non-empty
    corpus), and the state after [k] passes through the loop body. *)
Definition iterate_init corpus : gmap K Q * gmap K Q :=
  (assign_each (1 / Qn (size corpus)) (keys corpus) ∅, ∅).

Fixpoint rounds corpus (D : Q) (k : nat) : option (gmap K Q * gmap K Q) :=
  match k with
  | O => Some (iterate_init corpus)
  | S k => st ← rounds corpus D k; snd <$> round corpus D st
  end.

(** The share of the rank of a page with outgoing links [links] that one
    round passes on to page [P]. *)
Definition link_weight (N : nat) (P : K) (links : gset K) : Q :=
  (if decide (P ∈ links) then 1 / Qn (size links) else 0)
  + (if decide (links = ∅) then 1 / Qn N else 0).

Definition weighted_sum corpus page_rank (P : K) : Q :=
  Qsum ((λ item : K * gset K,
           rank_of page_rank item.1 * link_weight (size corpus) P item.2)
          <$> map_to_list corpus).

(** The snapshot one round computes from [page_rank]. *)
Definition next_ranks corpus (D : Q) page_rank : gmap K Q :=
  map_imap (λ P _, new_rank corpus D page_rank P) page_rank.

(** The sum over all pages of the absolute difference of two snapshots. *)
Definition distance corpus (a b : gmap K Q) : Q :=
  Qsum ((λ P, Qabs (rank_of a P - rank_of b P)) <$> keys corpus).

Fixpoint Qpow (d : Q) (k : nat) : Q :=
  match k with
  | O => 1
  | S k => d * Qpow d k
  end.

(** The snapshot reached from [page_rank] after [k] rounds. *)
Fixpoint snapshots corpus (D : Q) (k : nat) page_rank : gmap K Q :=
  match k with
  | O => page_rank
  | S k => snapshots corpus D k (next_ranks corpus D page_rank)
  end.

End pagerank.

(** * Example graphs *)

(** Three pages in a chain, the last without outgoing links. *)
Definition chain_corpus : gmap string (gset string) :=
  {[ "a.html" := {[ "b.html" ]};
     "b.html" := {[ "c.html" ]};
     "c.html" := ∅ ]}%string.

(** A single page without links. *)
Definition single_corpus : gmap string (gset string) :=
  {[ "1.html" := ∅ ]}%string.

(** Five pages, each with outgoing links. *)
Definition five_corpus : gmap string (gset string) :=
  {[ "0.html" := {[ "2.html" ]};
     "1.html" := {[ "0.html"; "3.html" ]};
     "2.html" := {[ "0.html"; "1.html"; "4.html" ]};
     "3.html" := {[ "1.html"; "2.html" ]};
     "4.html" := {[ "0.html"; "1.html"; "3.html" ]} ]}%string.

(** A random source that always draws one half. *)
Definition constant_rng : nat → Q := λ _, 1 # 2.

(** * The crawler *)

(** What [crawl] sees of the disk: for a directory name, the entries that
    [os.listdir] returns (if the directory can be listed), each with the
    text that [open(...)] and [f.read()] give (if the entry can be opened
    and read). *)
Definition file_system : Type :=
  string → option (list (string * option string)).

(** [s.endswith(suffix)] *)
Definition endswith (s suffix : string) : bool :=
  let n := String.length s in
  let k := String.length suffix in
  (k <=? n)%nat && String.eqb (String.substring (n - k) k s) suffix.

Section crawl.

(** [re.findall(pattern, contents)] with the pattern of the source, which
    captures the quoted [href] target of every [<a ...>] tag: the targets
    of the hyperlinks in [contents], in order.  The regular expression
    engine is a library; its result is a parameter here. *)
Variable findall : string → list string.

(** The body of [for filename in os.listdir(directory)]. *)
Definition read_page (pages : gmap string (gset string))
    (entry : string * option string) : option (gmap string (gset string)) :=
  let '(filename, file) := entry in
  if negb (endswith filename ".html") then Some pages
  else
    contents ← file;
    let links := findall contents in
    Some (<[filename := list_to_set links ∖ {[filename]}]> pages).

(** The body of [for filename in pages]: [pages[filename]] becomes the set
    of the [link]s in [pages[filename]] with [link in pages]. *)
Definition keep_known (pages : gmap string (gset string)) (filename : string)
  : option (gmap string (gset string)) :=
  links ← pages !! filename;
  Some (<[filename := filter (λ link, link ∈ dom pages) links]> pages).

Definition crawl (fs : file_system) (directory : string)
  : option (gmap string (gset string)) :=
  entries ← fs directory;
  pages ← for_each read_page ∅ entries;
  for_each keep_known pages (keys pages).

End crawl.

(** Every entry that [crawl] opens can be read. *)
Definition readable (entries : list (string * option string)) : Prop :=
  ∀ filename file,
    (filename, file) ∈ entries → endswith filename ".html" = true →
    is_Some file.

(** ** An example directory *)

(** Link targets are written one per line in the example pages. *)
Fixpoint lines_from (cur : string) (s : string) : list string :=
  match s with
  | EmptyString => if String.eqb cur "" then [] else [String.rev cur]
  | String a s =>
      if Ascii.eqb a (Ascii.ascii_of_nat 10)
      then (if String.eqb cur "" then [] else [String.rev cur])
             ++ lines_from "" s
      else lines_from (String a cur) s
  end.

Definition example_findall (contents : string) : list string :=
  lines_from "" contents.

Definition example_entries : list (string * option string) :=
  [ ("a.html", Some "b.html
a.html
http://example.org/");
    ("b.html", Some "c.html
b.html
d.html");
    ("c.html", Some "");
    ("notes.txt", None) ]%string.

Definition example_fs : file_system :=
  λ directory, if String.eqb directory "corpus" then Some example_entries
               else None.

(** * The command line *)

(** How a run of [main] ends: [sys.exit(message)]; an uncaught exception
    (or, in this model, the fuel of the iteration running out); or the end
    of the function. *)
Inductive outcome : Type :=
  | Exit (message : string)
  | Stopped
  | Done.

Section main.

Variable findall : string → list string.

(** The formatting [f"{x:.4f}"] of a rank; floating-point formatting is a
    parameter of the model. *)
Variable format4 : Q → string.

(** [f"  {page}: {ranks[page]:.4f}"] *)
Definition rank_line (page : string) (rank : Q) : string :=
  "  " +:+ page +:+ ": " +:+ format4 rank.

(** [for page in sorted(ranks): print(...)], appending to the lines
    printed so far. *)
Definition print_ranks (ranks : gmap string Q) (out : list string)
  : option (list string) :=
  for_each (λ out page,
              rank ← ranks !! page; Some (out ++ [rank_line page rank]))
           out (merge_sort String.le (keys ranks)).

(** [main] with [sys.argv], the disk, the random source and the fuel for
    the iteration as arguments; the result is the lines printed and the way
    the run ends. *)
Definition main (argv : list string) (fs : file_system) (rng : nat → Q)
    (fuel : nat) : list string * outcome :=
  if decide (length argv ≠ 2%nat)
  then ([], Exit "Usage: python pagerank.py corpus")
  else
    match argv !! 1%nat ≫= crawl findall fs with
    | None => ([], Stopped)
    | Some corpus =>
    match sample_pagerank corpus DAMPING SAMPLES rng with
    | None => ([], Stopped)
    | Some ranks =>
    let out :=
      ["PageRank Results from Sampling (n = " +:+ pretty SAMPLES +:+ ")"] in
    match print_ranks ranks out with
    | None => (out, Stopped)
    | Some out =>
    match iterate_pagerank fuel corpus DAMPING with
    | None => (out, Stopped)
    | Some ranks =>
    let out := out ++ ["PageRank Results from Iteration"] in
    match print_ranks ranks out with
    | None => (out, Stopped)
    | Some out => (out, Done)
    end end end end end.

End main.

(** An example formatting of ranks: numerator, a slash, denominator. *)
Definition example_format (x : Q) : string :=
  pretty (Qnum x) +:+ "/" +:+ pretty (Z.pos (Qden x)).

(** The example directory without the entry that is not a page. *)
Definition example_fs_pages : file_system :=
  λ _, Some (take 3 example_entries).

(** A link graph whose only page links to a page that is not a key. *)
Definition open_corpus : gmap string (gset string) :=
  {[ "a.html" := {[ "x.html" ]} ]}.

(** Three pages without any link. *)
Definition unlinked_corpus : gmap string (gset string) :=
  {[ "a.html" := ∅; "b.html" := ∅; "c.html" := ∅ ]}.

(** A rank assignment on the chain that gives every page the rank 1. *)
Definition ones_on_chain : gmap string Q :=
  (λ _ : gset string, 1) <$> chain_corpus.

(** * Properties *)

Section properties.
Context {K : Type} `{!EqDecision K} `{!Countable K}.

Implicit Types (corpus : gmap K (gset K)) (page link : K).
Implicit Types (links : gset K).
Implicit Types (dist page_rank calculated_pr : gmap K Q).


(** ** Sums of rationals *)

Lemma Qn_0 : Qn 0 = 0.
Proof. reflexivity. Qed.

Lemma Qn_S n : Qn (S n) == Qn n + 1.
Proof.
  unfold Qn. rewrite Nat2Z.inj_succ, <- Z.add_1_r, inject_Z_plus. reflexivity.
Qed.

Lemma Qn_nonneg n : 0 <= Qn n.
Proof. unfold Qn, Qle. simpl. lia. Qed.

Lemma Qn_pos n : (0 < n)%nat → 0 < Qn n.
Proof. intros Hn. unfold Qn, Qlt. simpl. lia. Qed.

Lemma Qsum_nil : Qsum [] = 0.
Proof. reflexivity. Qed.

Lemma Qsum_cons x l : Qsum (x :: l) = x + Qsum l.
Proof. reflexivity. Qed.

Ltac qsum := rewrite ?fmap_nil, ?fmap_cons, ?Qsum_nil, ?Qsum_cons, ?Qn_0.

Lemma Qsum_perm l1 l2 : l1 ≡ₚ l2 → Qsum l1 == Qsum l2.
Proof.
  induction 1 as [|x l1 l2 _ IH|x y l|l1 l2 l3 _ IH1 _ IH2]; qsum.
  - reflexivity.
  - rewrite IH. reflexivity.
  - ring.
  - rewrite IH1. exact IH2.
Qed.

Lemma Qsum_ext {A} (f g : A → Q) l :
  (∀ x, x ∈ l → f x == g x) → Qsum (f <$> l) == Qsum (g <$> l).
Proof.
  induction l as [|x l IH]; intros Hfg; qsum; [reflexivity|].
  rewrite (Hfg x), IH; [reflexivity| |left].
  intros y Hy. apply Hfg. by right.
Qed.

Lemma Qsum_le {A} (f g : A → Q) l :
  (∀ x, x ∈ l → f x <= g x) → Qsum (f <$> l) <= Qsum (g <$> l).
Proof.
  induction l as [|x l IH]; intros Hfg; qsum; [apply Qle_refl|].
  apply Qplus_le_compat; [apply Hfg; left|].
  apply IH. intros y Hy. apply Hfg. by right.
Qed.

Lemma Qsum_plus {A} (f g : A → Q) l :
  Qsum ((λ x, f x + g x) <$> l) == Qsum (f <$> l) + Qsum (g <$> l).
Proof. induction l as [|x l IH]; qsum; [|rewrite IH]; ring. Qed.

Lemma Qsum_scale {A} (c : Q) (f : A → Q) l :
  Qsum ((λ x, c * f x) <$> l) == c * Qsum (f <$> l).
Proof. induction l as [|x l IH]; qsum; [|rewrite IH]; ring. Qed.

Lemma Qsum_const {A} (c : Q) (l : list A) :
  Qsum ((λ _, c) <$> l) == Qn (length l) * c.
Proof.
  induction l as [|x l IH]; simpl length; qsum; [ring|].
  rewrite Qn_S, IH. ring.
Qed.

Lemma Qsum_nonneg {A} (f : A → Q) l :
  (∀ x, x ∈ l → 0 <= f x) → 0 <= Qsum (f <$> l).
Proof.
  induction l as [|x l IH]; intros Hf; qsum; [apply Qle_refl|].
  assert (0 <= f x) by (apply Hf; left).
  assert (0 <= Qsum (f <$> l)) by (apply IH; intros y Hy; apply Hf; by right).
  lra.
Qed.

Lemma Qsum_elem_le {A} (f : A → Q) l x :
  (∀ y, y ∈ l → 0 <= f y) → x ∈ l → f x <= Qsum (f <$> l).
Proof.
  induction l as [|y l IH]; intros Hf Hx; [by apply elem_of_nil in Hx|].
  assert (0 <= f y) by (apply Hf; left).
  assert (0 <= Qsum (f <$> l))
    by (apply Qsum_nonneg; intros z Hz; apply Hf; by right).
  qsum. apply elem_of_cons in Hx as [->|Hx]; [lra|].
  assert (f x <= Qsum (f <$> l))
    by (apply IH; [intros z Hz; apply Hf; by right|done]).
  lra.
Qed.

Lemma Qsum_abs {A} (f : A → Q) l :
  Qabs (Qsum (f <$> l)) <= Qsum ((λ x, Qabs (f x)) <$> l).
Proof.
  induction l as [|x l IH]; qsum; [apply Qle_refl|].
  eapply Qle_trans; [apply Qabs_triangle|]. lra.
Qed.

Lemma Qsum_exchange {A B} (f : A → B → Q) (l1 : list A) (l2 : list B) :
  Qsum ((λ x, Qsum ((λ y, f x y) <$> l2)) <$> l1)
  == Qsum ((λ y, Qsum ((λ x, f x y) <$> l1)) <$> l2).
Proof.
  induction l1 as [|x l1 IH].
  - qsum. rewrite (Qsum_ext _ (λ _, 0)) by (intros; reflexivity).
    rewrite Qsum_const. ring.
  - rewrite fmap_cons, Qsum_cons, IH, <- Qsum_plus.
    apply Qsum_ext. intros y _. qsum. reflexivity.
Qed.

Lemma Qsum_filter {A} (P : A → Prop) `{!∀ x, Decision (P x)} (c : Q) l :
  Qsum ((λ x, if decide (P x) then c else 0) <$> l)
  == Qn (length (filter P l)) * c.
Proof.
  induction l as [|x l IH]; [qsum; simpl; qsum; ring|].
  rewrite filter_cons, fmap_cons, Qsum_cons, IH.
  destruct (decide (P x)); simpl length; [rewrite Qn_S|]; ring.
Qed.

(** ** Dictionaries *)

Lemma elem_of_keys {V} (m : gmap K V) k : k ∈ keys m ↔ k ∈ dom m.
Proof.
  unfold keys. rewrite elem_of_dom, list_elem_of_fmap. split.
  - intros [[k' v] [-> Hin]]. apply elem_of_map_to_list in Hin. eauto.
  - intros [v Hv]. exists (k, v). split; [done|]. by apply elem_of_map_to_list.
Qed.

Lemma NoDup_keys {V} (m : gmap K V) : NoDup (keys m).
Proof. apply NoDup_fst_map_to_list. Qed.

Lemma length_keys {V} (m : gmap K V) : length (keys m) = size m.
Proof. unfold keys. by rewrite length_fmap, length_map_to_list. Qed.

Lemma keys_dom_eq {V W} (m1 : gmap K V) (m2 : gmap K W) :
  dom m1 = dom m2 → keys m1 ≡ₚ keys m2.
Proof.
  intros Hdom. apply NoDup_Permutation; [apply NoDup_keys..|].
  intros k. by rewrite !elem_of_keys, Hdom.
Qed.

Lemma decide_elem_of_cons_eq {A} (a : K) ks (x y : A) :
  (if decide (a ∈ a :: ks) then x else y) = x.
Proof. rewrite decide_True; [done|left]. Qed.

Lemma decide_elem_of_cons_ne {A} (k a : K) ks (x y : A) :
  k ≠ a →
  (if decide (k ∈ a :: ks) then x else y) = (if decide (k ∈ ks) then x else y).
Proof.
  intros Hne. destruct (decide (k ∈ ks)) as [Hin|Hnin].
  - rewrite decide_True; [done|by right].
  - rewrite decide_False; [done|]. by intros [?|?]%elem_of_cons.
Qed.

Lemma assign_each_lookup {V} (v : V) ks (m : gmap K V) k :
  assign_each v ks m !! k = if decide (k ∈ ks) then Some v else m !! k.
Proof.
  unfold assign_each. revert m.
  induction ks as [|a ks IH]; intros m; cbn [foldl].
  - rewrite decide_False; [done|]. apply not_elem_of_nil.
  - rewrite IH. destruct (decide (k = a)) as [->|Hne].
    + rewrite lookup_insert_eq, decide_elem_of_cons_eq. by case_decide.
    + by rewrite lookup_insert_ne, decide_elem_of_cons_ne.
Qed.

Lemma dom_assign_each {V W} (v : V) (m : gmap K W) :
  dom (assign_each v (keys m) (∅ : gmap K V)) = dom m.
Proof.
  apply set_eq. intros k. rewrite elem_of_dom, assign_each_lookup.
  case_decide as Hk; rewrite elem_of_keys in Hk.
  - split; [done|eauto].
  - rewrite lookup_empty. split; [by intros [? ?]|done].
Qed.

(** The values of a dictionary given key by key add up to the sum over the
    keys. *)
Lemma total_pointwise (m : gmap K Q) (f : K → Q) (ks : list K) :
  NoDup ks →
  (∀ k, m !! k = if decide (k ∈ ks) then Some (f k) else None) →
  total m == Qsum (f <$> ks).
Proof.
  intros Hnd Hm. unfold total.
  rewrite (Qsum_perm _ (((λ k, (k, f k)) <$> ks).*2)).
  { rewrite <- list_fmap_compose. reflexivity. }
  apply fmap_Permutation.
  { apply NoDup_Permutation.
    - apply NoDup_map_to_list.
    - apply NoDup_fmap_2; [|done]. by intros ?? [= ->].
    - intros [k v]. rewrite elem_of_map_to_list, Hm, list_elem_of_fmap.
      case_decide as Hk; split.
      + intros [= <-]. by exists k.
      + by intros (k' & [= -> ->] & _).
      + done.
      + by intros (k' & [= -> ->] & ?). }
Qed.

Lemma total_as_keys (m : gmap K Q) :
  total m == Qsum ((λ k, default 0 (m !! k)) <$> keys m).
Proof.
  apply total_pointwise; [apply NoDup_keys|]. intros k.
  case_decide as Hk; rewrite elem_of_keys, elem_of_dom in Hk.
  - by destruct Hk as [v ->].
  - by apply eq_None_not_Some.
Qed.

(** ** [transition_model] *)

Lemma add_each_spec (v : Q) ls dist :
  NoDup ls → (∀ k, k ∈ ls → is_Some (dist !! k)) →
  ∃ dist', for_each (add_at v) dist ls = Some dist' ∧
    ∀ k, dist' !! k
         = if decide (k ∈ ls) then (λ old, old + v) <$> dist !! k
           else dist !! k.
Proof.
  intros Hnd. revert dist. induction Hnd as [|a ls Ha Hnd IH]; intros dist Hin.
  - exists dist. split; [done|]. intros k.
    rewrite decide_False; [done|]. apply not_elem_of_nil.
  - destruct (Hin a) as [old Hold]; [left|].
    destruct (IH (<[a := old + v]> dist)) as (dist' & Hrun & Hget).
    { intros k Hk. rewrite lookup_insert. case_decide; [eauto|].
      apply Hin. by right. }
    exists dist'. split.
    { cbn [for_each].
      assert (add_at v dist a = Some (<[a := old + v]> dist)) as ->
        by (unfold add_at; by rewrite Hold).
      exact Hrun. }
    intros k. rewrite Hget. destruct (decide (k = a)) as [->|Hne].
    + rewrite lookup_insert_eq, Hold, decide_elem_of_cons_eq.
      by rewrite decide_False.
    + by rewrite lookup_insert_ne, decide_elem_of_cons_ne.
Qed.

Lemma add_each_missing (v : Q) ls dist link :
  link ∈ ls → dist !! link = None → for_each (add_at v) dist ls = None.
Proof.
  revert dist. induction ls as [|a ls IH]; intros dist Hin Hnone.
  - by apply elem_of_nil in Hin.
  - cbn [for_each]. destruct (decide (a = link)) as [->|Hne].
    + unfold add_at. by rewrite Hnone.
    + destruct (add_at v dist a) as [dist1|] eqn:Hadd; [|done].
      cbn [mbind option_bind].
      apply IH; [by apply elem_of_cons in Hin as [<-|Hin]|].
      unfold add_at in Hadd. destruct (dist !! a) as [old|]; [|done].
      injection Hadd as <-. by rewrite lookup_insert_ne.
Qed.

Lemma transition_model_lookup corpus page d links :
  corpus !! page = Some links → links ⊆ dom corpus →
  ∃ dist, transition_model corpus page d = Some dist ∧
    ∀ q, dist !! q
         = if decide (q ∈ keys corpus)
           then Some (transition_value corpus links d q) else None.
Proof.
  intros Hpage Hsub. unfold transition_model, transition_value.
  rewrite Hpage. simpl. case_decide as Hsize.
  - apply size_empty_iff, leibniz_equiv in Hsize. subst links.
    eexists. split; [done|]. intros q. rewrite assign_each_lookup.
    rewrite (decide_True (P := ∅ = ∅)) by done. by rewrite lookup_empty.
  - assert (links ≠ ∅) as Hne.
    { intros ->. by apply Hsize, size_empty. }
    edestruct (add_each_spec (d / Qn (size links)) (elements links))
      as (dist & -> & Hget).
    { apply NoDup_elements. }
    { intros k Hk. rewrite assign_each_lookup.
      rewrite decide_True; [eauto|]. apply elem_of_keys, Hsub.
      by apply elem_of_elements. }
    exists dist. split; [done|]. intros q. rewrite Hget, assign_each_lookup.
    rewrite (decide_False (P := links = ∅)) by done. rewrite lookup_empty.
    destruct (decide (q ∈ links)) as [Hq|Hq].
    + rewrite decide_True by (by apply elem_of_elements).
      by case_decide.
    + rewrite decide_False by (by rewrite elem_of_elements).
      done.
Qed.

Lemma length_filter_links corpus (links : gset K) :
  links ⊆ dom corpus →
  length (filter (λ q, q ∈ links) (keys corpus)) = size links.
Proof.
  intros Hsub. apply Permutation_length, NoDup_Permutation.
  - apply NoDup_filter, NoDup_keys.
  - apply NoDup_elements.
  - intros q. rewrite list_elem_of_filter, elem_of_elements, elem_of_keys.
    split; [by intros [? ?]|]. intros Hq. split; [done|by apply Hsub].
Qed.

Lemma size_links_nonzero (links : gset K) : links ≠ ∅ → ¬ Qn (size links) == 0.
Proof.
  intros Hne. assert (size links ≠ 0%nat) as Hsz.
  { rewrite size_non_empty_iff. by intros ?%leibniz_equiv. }
  assert (0 < Qn (size links)) by (apply Qn_pos; lia). lra.
Qed.

Lemma size_corpus_nonzero {V} (m : gmap K V) : m ≠ ∅ → ¬ Qn (size m) == 0.
Proof.
  intros Hne%map_size_non_empty_iff.
  assert (0 < Qn (size m)) by (apply Qn_pos; lia). lra.
Qed.

Lemma transition_value_sum corpus links d :
  corpus ≠ ∅ → links ⊆ dom corpus →
  Qsum (transition_value corpus links d <$> keys corpus) == 1.
Proof.
  intros Hne Hsub. apply size_corpus_nonzero in Hne.
  unfold transition_value. destruct (decide (links = ∅)) as [->|Hlinks].
  - rewrite Qsum_const, length_keys. by field.
  - apply size_links_nonzero in Hlinks.
    rewrite (Qsum_ext _ (λ q, (1 - d) / Qn (size corpus)
                              + (if decide (q ∈ links)
                                 then d / Qn (size links) else 0))).
    { rewrite Qsum_plus, Qsum_const, Qsum_filter, length_keys.
      rewrite length_filter_links by done. by field. }
    intros q _. case_decide; [reflexivity|ring].
Qed.

(** A link to a page that is not in the corpus makes [dist[link] += ...]
    raise: the closed-universe invariant is needed for a result. *)
Lemma transition_model_open_link corpus page d links link :
  corpus !! page = Some links → link ∈ links → link ∉ dom corpus →
  transition_model corpus page d = None.
Proof.
  intros Hpage Hlink Hopen. unfold transition_model. rewrite Hpage.
  cbn [mbind option_bind]. rewrite decide_False.
  - apply (add_each_missing _ _ _ link); [by apply elem_of_elements|].
    rewrite assign_each_lookup, decide_False, lookup_empty; [done|].
    by rewrite elem_of_keys.
  - intros Hsize%size_empty_iff. apply (not_elem_of_empty (C := gset K) link).
    by apply Hsize.
Qed.

Lemma dom_pointwise {V W} (m : gmap K V) (f : K → V) (corpus' : gmap K W) :
  (∀ k, m !! k = if decide (k ∈ keys corpus') then Some (f k) else None) →
  dom m = dom corpus'.
Proof.
  intros Hm. apply set_eq. intros k. rewrite elem_of_dom, Hm.
  case_decide as Hk; rewrite elem_of_keys in Hk.
  - split; [done|eauto].
  - split; [by intros [? ?]|done].
Qed.

Lemma transition_model_weights corpus page d :
  closed_universe corpus → page ∈ dom corpus →
  ∃ dist,
    transition_model corpus page d = Some dist
    ∧ length (map_to_list dist).*2 = length (keys dist)
    ∧ keys dist ≡ₚ keys corpus
    ∧ 0 < Qsum (map_to_list dist).*2.
Proof.
  intros Hclosed Hin. pose proof Hin as [links Hpage]%elem_of_dom.
  assert (links ⊆ dom corpus) as Hsub by (by eapply Hclosed).
  destruct (transition_model_lookup corpus page d links)
    as (dist & Hrun & Hget); [done..|].
  exists dist. split_and!; [done| | |].
  - unfold keys. by rewrite !length_fmap.
  - by apply keys_dom_eq, (dom_pointwise _ (transition_value corpus links d)).
  - fold (total dist).
    rewrite (total_pointwise dist (transition_value corpus links d)
               (keys corpus)); [|apply NoDup_keys|done].
    rewrite transition_value_sum; [reflexivity| |done].
    intros ->. by rewrite lookup_empty in Hpage.
Qed.

(** ** Claims about [transition_model] *)

(** C1. On a link graph (every link target is a page) and a current page
    [page] of the graph with outgoing links [links], [transition_model]
    returns a distribution that gives every page [q] of the graph:
    [1 / N] when [page] has no outgoing links; otherwise
    [(1 - damping_factor) / N], plus [damping_factor / L] when [page] links
    to [q] -- with [N] the number of pages and [L] the out-degree of [page].
    (This holds for every damping factor, in particular in (0,1).) *)
Theorem transition_model_distribution corpus page (damping_factor : Q) :
  closed_universe corpus → page ∈ dom corpus →
  ∃ links dist,
    corpus !! page = Some links
    ∧ transition_model corpus page damping_factor = Some dist
    ∧ ∀ q, q ∈ dom corpus →
        dist !! q
        = Some (if decide (links = ∅) then 1 / Qn (size corpus)
                else if decide (q ∈ links)
                     then (1 - damping_factor) / Qn (size corpus)
                          + damping_factor / Qn (size links)
                     else (1 - damping_factor) / Qn (size corpus)).
Proof.
  intros Hclosed [links Hpage]%elem_of_dom.
  destruct (transition_model_lookup corpus page damping_factor links)
    as (dist & Hrun & Hget); [done|by eapply Hclosed|].
  exists links, dist. split_and!; [done..|].
  intros q Hq. rewrite Hget, decide_True by (by apply elem_of_keys). done.
Qed.

(** C3. On a link graph and a current page of the graph, the distribution
    returned by [transition_model] has exactly the pages of the graph as
    its keys, and its values sum to 1 (in exact arithmetic). *)
Theorem transition_model_sums_to_one corpus page (damping_factor : Q) :
  closed_universe corpus → page ∈ dom corpus →
  ∃ dist,
    transition_model corpus page damping_factor = Some dist
    ∧ dom dist = dom corpus
    ∧ total dist == 1.
Proof.
  intros Hclosed Hin. pose proof Hin as [links Hpage]%elem_of_dom.
  assert (links ⊆ dom corpus) as Hsub by (by eapply Hclosed).
  destruct (transition_model_lookup corpus page damping_factor links)
    as (dist & Hrun & Hget); [done..|].
  exists dist. split_and!; [done| |].
  - by apply (dom_pointwise _ (transition_value corpus links damping_factor)).
  - rewrite (total_pointwise dist (transition_value corpus links damping_factor)
               (keys corpus)); [|apply NoDup_keys|done].
    apply transition_value_sum; [|done].
    intros ->. by rewrite lookup_empty in Hpage.
Qed.

(** C9, as amended. [transition_model] raises when the current page is not
    a key of the graph, in particular when the graph is empty, and also
    when the current page links to a page that is not a key.  When the
    current page is a key and every page it links to is a key, the failure
    branches are not reached and a distribution is returned: its keys are
    the pages of the graph, every page has the value of C1, and the values
    sum to 1. *)
Theorem transition_model_failure corpus page (damping_factor : Q) :
  (page ∉ dom corpus → transition_model corpus page damping_factor = None)
  ∧ (corpus = ∅ → transition_model corpus page damping_factor = None)
  ∧ (∀ links link,
       corpus !! page = Some links → link ∈ links → link ∉ dom corpus →
       transition_model corpus page damping_factor = None)
  ∧ (∀ links,
       corpus !! page = Some links → links ⊆ dom corpus →
       ∃ dist,
         transition_model corpus page damping_factor = Some dist
         ∧ dom dist = dom corpus
         ∧ (∀ q, q ∈ dom corpus →
              dist !! q
              = Some (transition_value corpus links damping_factor q))
         ∧ total dist == 1).
Proof.
  split_and!.
  - intros Hnot%not_elem_of_dom. unfold transition_model. by rewrite Hnot.
  - intros ->. unfold transition_model. by rewrite lookup_empty.
  - intros links link Hpage Hlink Hopen.
    by apply (transition_model_open_link corpus page damping_factor links link).
  - intros links Hpage Hsub.
    destruct (transition_model_lookup corpus page damping_factor links)
      as (dist & Hrun & Hget); [done..|].
    exists dist. split_and!; [done| | |].
    + by apply (dom_pointwise _ (transition_value corpus links damping_factor)).
    + intros q Hq. rewrite Hget, decide_True by (by apply elem_of_keys). done.
    + rewrite (total_pointwise dist
                 (transition_value corpus links damping_factor) (keys corpus));
        [|apply NoDup_keys|done].
      apply transition_value_sum; [|done].
      intros ->. by rewrite lookup_empty in Hpage.
Qed.

(** ** The random source *)

Lemma choice_elem (u : Q) (seq : list K) :
  seq ≠ [] → ∃ k, choice u seq = Some k ∧ k ∈ seq.
Proof.
  intros Hne. unfold choice.
  destruct (lookup_lt_is_Some_2 seq
    (Z.to_nat (Qfloor (u * Qn (length seq))) `mod` length seq)) as [k Hk].
  { apply Nat.mod_upper_bound. by destruct seq. }
  exists k. split; [done|]. by eapply list_elem_of_lookup_2.
Qed.

Lemma length_running_sums acc ws : length (running_sums acc ws) = length ws.
Proof. revert acc. induction ws as [|w ws IH]; intros acc; simpl; auto. Qed.

Lemma length_accumulate ws : length (accumulate ws) = length ws.
Proof. destruct ws; simpl; [done|]. by rewrite length_running_sums. Qed.

Lemma last_running_sums acc w ws :
  ∃ t, last (running_sums acc (w :: ws)) = Some t ∧ t == acc + Qsum (w :: ws).
Proof.
  revert acc w. induction ws as [|w' ws IH]; intros acc w.
  - exists (acc + w). split; [done|]. rewrite Qsum_cons, Qsum_nil. ring.
  - destruct (IH (acc + w) w') as (t & Ht & Hsum). exists t. split.
    + exact Ht.
    + rewrite Hsum, !Qsum_cons. ring.
Qed.

Lemma last_accumulate w ws :
  ∃ t, last (accumulate (w :: ws)) = Some t ∧ t == Qsum (w :: ws).
Proof.
  destruct ws as [|w' ws].
  - exists w. split; [done|]. rewrite Qsum_cons, Qsum_nil. ring.
  - destruct (last_running_sums w w' ws) as (t & Ht & Hsum). exists t. split.
    + exact Ht.
    + rewrite Hsum, !Qsum_cons. ring.
Qed.

Lemma bisect_le a x hi : (bisect a x hi ≤ hi)%nat.
Proof.
  revert a. induction hi as [|hi IH]; intros [|c a]; simpl; try lia.
  destruct (Qle_bool c x); [|lia]. specialize (IH a). lia.
Qed.

Lemma choices_elem (u : Q) (population : list K) (weights : list Q) :
  length weights = length population → 0 < Qsum weights →
  ∃ k, choices u population weights = Some k ∧ k ∈ population.
Proof.
  intros Hlen Hpos. unfold choices.
  rewrite decide_False by (rewrite length_accumulate, Hlen; auto).
  destruct weights as [|w ws]; [rewrite Qsum_nil in Hpos; lra|].
  destruct (last_accumulate w ws) as (t & -> & Ht). cbn [mbind option_bind].
  destruct (Qle_bool t 0) eqn:Hle.
  { apply Qle_bool_iff in Hle. lra. }
  destruct (lookup_lt_is_Some_2 population
    (bisect (accumulate (w :: ws)) (u * t) (length population - 1)))
    as [k Hk].
  { pose proof (bisect_le (accumulate (w :: ws)) (u * t)
                  (length population - 1)).
    simpl in Hlen. lia. }
  exists k. split; [done|]. by eapply list_elem_of_lookup_2.
Qed.

(** ** [sample_pagerank] *)

Lemma Zsum_cons x l : Zsum (x :: l) = (x + Zsum l)%Z.
Proof. reflexivity. Qed.

Lemma Zsum_perm l1 l2 : l1 ≡ₚ l2 → Zsum l1 = Zsum l2.
Proof.
  induction 1 as [|x l1 l2 _ IH|x y l|l1 l2 l3 _ IH1 _ IH2]; simpl; lia.
Qed.

Lemma visits_total_increment (m : gmap K Z) p c :
  m !! p = Some c →
  visits_total (<[p := (c + 1)%Z]> m) = (visits_total m + 1)%Z.
Proof.
  intros Hp. unfold visits_total.
  rewrite <- (insert_delete_eq m p (c + 1)%Z).
  rewrite (Zsum_perm _ (((p, (c + 1)%Z) :: map_to_list (delete p m)).*2)).
  2:{ apply fmap_Permutation, map_to_list_insert, lookup_delete_eq. }
  rewrite (Zsum_perm (map_to_list m).*2
             (((p, c) :: map_to_list (delete p m)).*2)).
  2:{ apply fmap_Permutation. symmetry. by apply map_to_list_delete. }
  rewrite !fmap_cons, !Zsum_cons. simpl. lia.
Qed.

Lemma visits_total_zero corpus :
  visits_total (assign_each 0%Z (keys corpus) ∅) = 0%Z.
Proof.
  unfold visits_total.
  assert (∀ l : list (K * Z), (∀ kv, kv ∈ l → kv.2 = 0%Z) → Zsum l.*2 = 0%Z)
    as Hzero.
  { induction l as [|[k v] l IH]; intros Hl; [done|].
    rewrite fmap_cons, Zsum_cons, IH by (intros; apply Hl; by right).
    specialize (Hl (k, v)). simpl in Hl. rewrite Hl; [done|left]. }
  apply Hzero. intros [k v] Hkv. apply elem_of_map_to_list in Hkv.
  rewrite assign_each_lookup in Hkv. case_decide; by simplify_eq.
Qed.

Lemma total_normalized (n : Z) (m : gmap K Z) :
  total ((λ count, inject_Z count / inject_Z n) <$> m)
  == inject_Z (visits_total m) / inject_Z n.
Proof.
  unfold total, visits_total. rewrite map_to_list_fmap, <- list_fmap_compose.
  induction (map_to_list m) as [|[k v] l IH].
  - rewrite !fmap_nil. unfold Qdiv. rewrite Qsum_nil. simpl Zsum.
    change (inject_Z 0) with 0. ring.
  - rewrite !fmap_cons, Qsum_cons, Zsum_cons, IH. unfold prod_map.
    cbn [compose snd]. rewrite inject_Z_plus. unfold Qdiv. ring.
Qed.

(** What one pass through the loop body does to a state whose counters
    cover the pages of the graph and whose current page is in the graph. *)
Lemma sample_step_spec corpus d rng st :
  closed_universe corpus →
  dom (visits st) = dom corpus → sample_page st ∈ dom corpus →
  ∃ c next,
    visits st !! sample_page st = Some c
    ∧ next ∈ dom corpus
    ∧ sample_step corpus d rng st
      = Some (Sampler (<[sample_page st := (c + 1)%Z]> (visits st)) next
                (S (drawn st))).
Proof.
  intros Hclosed Hdom Hpage.
  assert (is_Some (visits st !! sample_page st)) as [c Hc].
  { apply elem_of_dom. by rewrite Hdom. }
  destruct (transition_model_weights corpus (sample_page st) d)
    as (dist & Hdist & Hlen & Hkeys & Hsum); [done..|].
  destruct (choices_elem (rng (drawn st)) (keys dist) (map_to_list dist).*2)
    as (next & Hnext & Hin); [done..|].
  exists c, next. split_and!; [done| |].
  - rewrite Hkeys in Hin. by apply elem_of_keys.
  - unfold sample_step. rewrite Hc. cbn [mbind option_bind].
    rewrite Hdist. cbn [mbind option_bind]. by rewrite Hnext.
Qed.



Lemma sample_loop_spec corpus d rng steps st :
  closed_universe corpus →
  dom (visits st) = dom corpus → sample_page st ∈ dom corpus →
  ∃ st', sample_loop corpus d rng steps st = Some st'
    ∧ dom (visits st') = dom corpus
    ∧ sample_page st' ∈ dom corpus
    ∧ visits_total (visits st')
      = (visits_total (visits st) + Z.of_nat steps)%Z
    ∧ drawn st' = (drawn st + steps)%nat.
Proof.
  intros Hclosed. revert st.
  induction steps as [|steps IH]; intros st Hdom Hpage.
  - exists st. split_and!; [done..|lia|lia].
  - destruct (sample_step_spec corpus d rng st)
      as (c & next & Hc & Hnext & Hstep); [done..|].
    edestruct (IH (Sampler (<[sample_page st := (c + 1)%Z]> (visits st))
                     next (S (drawn st))))
      as (st' & Hloop & Hdom' & Hpage' & Htotal & Hdrawn).
    { cbn [visits]. rewrite dom_insert_L, Hdom.
      by apply subseteq_union_1_L, singleton_subseteq_l. }
    { done. }
    exists st'. split_and!; [|done..| |].
    + cbn [sample_loop]. rewrite Hstep. exact Hloop.
    + rewrite Htotal. cbn [visits].
      rewrite (visits_total_increment _ _ c) by done. lia.
    + rewrite Hdrawn. cbn [drawn]. lia.
Qed.

Lemma sample_init_spec corpus (rng : nat → Q) :
  corpus ≠ ∅ →
  ∃ start, choice (rng 0%nat) (keys corpus) = Some start
    ∧ start ∈ dom corpus
    ∧ dom (visits (sample_init corpus start)) = dom corpus
    ∧ visits_total (visits (sample_init corpus start)) = 0%Z.
Proof.
  intros Hne. destruct (choice_elem (rng 0%nat) (keys corpus))
    as (start & Hstart & Hin).
  { intros Hnil. apply Hne, map_size_empty_iff.
    by rewrite <- length_keys, Hnil. }
  exists start. split_and!; [done|by apply elem_of_keys|..].
  - cbn [sample_init visits]. apply dom_assign_each.
  - cbn [sample_init visits]. apply visits_total_zero.
Qed.

Lemma normalize_nonzero (n : Z) (m : gmap K Z) :
  n ≠ 0%Z → normalize n m = Some ((λ count, inject_Z count / inject_Z n) <$> m).
Proof. intros Hn. unfold normalize. rewrite decide_False; [done|]. tauto. Qed.

(** ** Claims about [sample_pagerank] *)


(** C10. On a non-empty graph and with a sample count of exactly 1,
    whatever the random draws, [sample_pagerank] leaves the loop state as
    it was after the starting draw (no pass through the loop body) and
    returns a rank assignment that gives 0 to every page of the graph, so
    that the ranks total 0. *)
Theorem sample_pagerank_one_sample corpus (damping_factor : Q)
    (rng : nat → Q) :
  corpus ≠ ∅ →
  ∃ start r,
    choice (rng 0%nat) (keys corpus) = Some start
    ∧ sample_loop corpus damping_factor rng (Z.to_nat (1 - 1))
        (sample_init corpus start) = Some (sample_init corpus start)
    ∧ sample_pagerank corpus damping_factor 1 rng = Some r
    ∧ dom r = dom corpus
    ∧ (∀ q, q ∈ dom corpus → r !! q = Some 0)
    ∧ total r == 0.
Proof.
  intros Hne.
  destruct (sample_init_spec corpus rng Hne)
    as (start & Hstart & Hin & Hdom & Hzero).
  exists start, ((λ count, inject_Z count / inject_Z 1)
                 <$> visits (sample_init corpus start)).
  split_and!; [done|done| | | |].
  - unfold sample_pagerank. rewrite Hstart. cbn [mbind option_bind].
    by apply normalize_nonzero.
  - by rewrite dom_fmap_L.
  - intros q Hq. rewrite lookup_fmap. cbn [sample_init visits].
    rewrite assign_each_lookup, decide_True by (by apply elem_of_keys).
    done.
  - rewrite total_normalized, Hzero. reflexivity.
Qed.

(** ** One round of [iterate_pagerank] *)

Lemma exceeds_true old new :
  exceeds old new = true ↔ tolerance < Qabs (old - new).
Proof.
  unfold exceeds. rewrite negb_true_iff, <- not_true_iff_false, Qle_bool_iff.
  split; [apply Qnot_le_lt|apply Qlt_not_le].
Qed.

Lemma rank_of_lookup page_rank P v :
  page_rank !! P = Some v → rank_of page_rank P = v.
Proof. unfold rank_of. by intros ->. Qed.

Lemma inner_step_spec N page_rank cp sum page links rank :
  page_rank !! page = Some rank →
  ∃ sum', inner_step N page_rank cp sum (page, links) = Some sum'
    ∧ sum' == sum + rank * link_weight N cp links.
Proof.
  intros Hrank. unfold inner_step, link_weight. rewrite Hrank.
  destruct (decide (cp ∈ links)), (decide (links = ∅));
    cbn [mbind option_bind]; eexists; (split; [reflexivity|]);
    unfold Qdiv; ring.
Qed.

Lemma inner_loop_spec N page_rank cp items sum :
  (∀ item, item ∈ items → is_Some (page_rank !! item.1)) →
  ∃ sum', for_each (inner_step N page_rank cp) sum items = Some sum'
    ∧ sum' == sum + Qsum ((λ item : K * gset K, rank_of page_rank item.1
                                   * link_weight N cp item.2) <$> items).
Proof.
  revert sum. induction items as [|[page links] items IH]; intros sum Hin.
  - exists sum. split; [done|]. qsum. ring.
  - destruct (Hin (page, links)) as [rank Hrank]; [left|].
    destruct (inner_step_spec N page_rank cp sum page links rank Hrank)
      as (sum1 & Hstep & Hsum1).
    destruct (IH sum1) as (sum' & Hloop & Hsum').
    { intros item Hitem. apply Hin. by right. }
    exists sum'. split.
    + cbn [for_each]. rewrite Hstep. exact Hloop.
    + rewrite Hsum', Hsum1. qsum. cbn [fst snd].
      rewrite (rank_of_lookup page_rank page rank Hrank). ring.
Qed.

Lemma new_rank_spec corpus D page_rank cp :
  dom page_rank = dom corpus →
  ∃ v, new_rank corpus D page_rank cp = Some v
    ∧ v == (1 - D) / Qn (size corpus) + D * weighted_sum corpus page_rank cp.
Proof.
  intros Hdom. unfold new_rank.
  destruct (inner_loop_spec (size corpus) page_rank cp (map_to_list corpus) 0)
    as (sum & -> & Hsum).
  { intros [page links] Hitem%elem_of_map_to_list. apply elem_of_dom.
    rewrite Hdom. apply elem_of_dom. eauto. }
  cbn [mbind option_bind]. eexists. split; [reflexivity|].
  rewrite Hsum. unfold weighted_sum. ring.
Qed.

Lemma calculate_spec corpus D page_rank calculated_pr :
  dom page_rank = dom corpus →
  ∃ calculated_pr',
    calculate corpus D page_rank calculated_pr = Some calculated_pr'
    ∧ ∀ P, calculated_pr' !! P
           = if decide (P ∈ keys page_rank)
             then new_rank corpus D page_rank P else calculated_pr !! P.
Proof.
  intros Hdom. unfold calculate. generalize (keys page_rank) as ks.
  intros ks. revert calculated_pr.
  induction ks as [|a ks IH]; intros calculated_pr.
  - exists calculated_pr. split; [done|]. intros P.
    rewrite decide_False; [done|]. apply not_elem_of_nil.
  - destruct (new_rank_spec corpus D page_rank a Hdom) as (v & Hv & _).
    destruct (IH (<[a := v]> calculated_pr)) as (calc' & Hloop & Hget).
    exists calc'. split.
    + cbn [for_each]. rewrite Hv. exact Hloop.
    + intros P. rewrite Hget. destruct (decide (P = a)) as [->|Hne].
      * rewrite lookup_insert_eq, decide_elem_of_cons_eq. by case_decide.
      * by rewrite lookup_insert_ne, decide_elem_of_cons_ne.
Qed.

Lemma compare_loop calculated_pr ks (condition : bool) page_rank :
  NoDup ks →
  (∀ P, P ∈ ks → is_Some (page_rank !! P) ∧ is_Some (calculated_pr !! P)) →
  ∃ condition' page_rank',
    for_each (λ '(condition, page_rank) current_page,
                old ← page_rank !! current_page;
                new ← calculated_pr !! current_page;
                Some (if exceeds old new then true else condition,
                      <[current_page := new]> page_rank))
             (condition, page_rank) ks
    = Some (condition', page_rank')
    ∧ (∀ P, page_rank' !! P
            = if decide (P ∈ ks) then calculated_pr !! P else page_rank !! P)
    ∧ (condition' = true ↔
       condition = true
       ∨ ∃ P o n, P ∈ ks ∧ page_rank !! P = Some o
           ∧ calculated_pr !! P = Some n ∧ tolerance < Qabs (o - n)).
Proof.
  intros Hnd. revert condition page_rank.
  induction Hnd as [|a ks Ha Hnd IH]; intros condition page_rank Hin.
  - exists condition, page_rank. split_and!; [done| |].
    + intros P. rewrite decide_False; [done|]. apply not_elem_of_nil.
    + split; [by left|]. intros [?|(P & ? & ? & []%not_elem_of_nil & _)]; done.
  - destruct (Hin a) as [[o Ho] [n Hn]]; [left|].
    destruct (IH (if exceeds o n then true else condition)
                 (<[a := n]> page_rank))
      as (c' & pr' & Hloop & Hget & Hcond).
    { intros P HP. rewrite lookup_insert_ne by (by intros ->).
      apply Hin. by right. }
    exists c', pr'. split_and!.
    + cbn [for_each]. rewrite Ho. cbn [mbind option_bind]. rewrite Hn.
      exact Hloop.
    + intros P. rewrite Hget. destruct (decide (P = a)) as [->|Hne].
      * by rewrite lookup_insert_eq, decide_False, decide_elem_of_cons_eq.
      * by rewrite lookup_insert_ne, decide_elem_of_cons_ne.
    + rewrite Hcond. split.
      * intros [Hc|(P & o' & n' & HP & Ho' & Hn' & Hgt)].
        -- destruct (exceeds o n) eqn:Hex; [|by left].
           right. exists a, o, n. split_and!; [left|done..|].
           by apply exceeds_true.
        -- right. exists P, o', n'. split_and!; [by right| |done..].
           rewrite lookup_insert_ne in Ho' by (by intros ->). done.
      * intros [->|(P & o' & n' & HP & Ho' & Hn' & Hgt)].
        -- left. by destruct (exceeds o n).
        -- apply elem_of_cons in HP as [->|HP].
           ++ left. simplify_eq. apply exceeds_true in Hgt. by rewrite Hgt.
           ++ right. exists P, o', n'. split_and!; [done| |done..].
              rewrite lookup_insert_ne by (by intros ->). done.
Qed.

Lemma next_ranks_lookup corpus D page_rank P :
  next_ranks corpus D page_rank !! P
  = page_rank !! P ≫= λ _, new_rank corpus D page_rank P.
Proof. unfold next_ranks. by rewrite map_lookup_imap. Qed.

Lemma dom_next_ranks corpus D page_rank :
  dom page_rank = dom corpus →
  dom (next_ranks corpus D page_rank) = dom corpus.
Proof.
  intros Hdom. rewrite <- Hdom. apply set_eq. intros P.
  rewrite !elem_of_dom, next_ranks_lookup.
  destruct (new_rank_spec corpus D page_rank P Hdom) as (v & -> & _).
  destruct (page_rank !! P); cbn [mbind option_bind]; split; eauto;
    by intros [? ?].
Qed.

(** One pass through the loop body succeeds on any state whose
    [page_rank] is keyed by the pages of the graph; the new [page_rank] is
    [next_ranks] of the old one, whatever [calculated_pr] held before. *)
Lemma round_spec corpus D page_rank calculated_pr :
  dom page_rank = dom corpus →
  ∃ condition calculated_pr',
    round corpus D (page_rank, calculated_pr)
    = Some (condition, (next_ranks corpus D page_rank, calculated_pr'))
    ∧ (condition = true ↔ changed page_rank (next_ranks corpus D page_rank)).
Proof.
  intros Hdom.
  destruct (calculate_spec corpus D page_rank calculated_pr Hdom)
    as (calc' & Hcalc & Hget).
  assert (∀ P, P ∈ keys page_rank →
            calc' !! P = next_ranks corpus D page_rank !! P) as Hnext.
  { intros P HP. rewrite Hget, decide_True, next_ranks_lookup by done.
    apply elem_of_keys, elem_of_dom in HP as [v ->]. done. }
  destruct (compare_loop calc' (keys page_rank) false page_rank)
    as (c' & pr' & Hloop & Hget' & Hcond).
  { apply NoDup_keys. }
  { intros P HP. split; [by apply elem_of_dom, elem_of_keys|].
    rewrite Hget, decide_True by done.
    destruct (new_rank_spec corpus D page_rank P Hdom) as (v & -> & _). eauto. }
  assert (pr' = next_ranks corpus D page_rank) as ->.
  { apply map_eq. intros P. rewrite Hget'. case_decide as HP; [by apply Hnext|].
    rewrite next_ranks_lookup. rewrite elem_of_keys, not_elem_of_dom in HP.
    by rewrite HP. }
  exists c', calc'. split.
  - unfold round. rewrite Hcalc. cbn [mbind option_bind].
    unfold compare_and_store. rewrite Hloop. done.
  - rewrite Hcond. unfold changed. split.
    + intros [?|(P & o & n & HP & Ho & Hn & Hgt)]; [done|].
      exists P, o, n. by rewrite <- Hnext.
    + intros (P & o & n & Ho & Hn & Hgt). right. exists P, o, n.
      assert (P ∈ keys page_rank) by (apply elem_of_keys, elem_of_dom; eauto).
      by rewrite Hnext.
Qed.

(** ** The recurrence *)

Lemma Qsum_minus {A} (f g : A → Q) l :
  Qsum ((λ x, f x - g x) <$> l) == Qsum (f <$> l) - Qsum (g <$> l).
Proof. induction l as [|x l IH]; qsum; [|rewrite IH]; ring. Qed.

Lemma Qsum_filter_fmap {A} (P : A → Prop) `{!∀ x, Decision (P x)}
    (f : A → Q) l :
  Qsum ((λ x, if decide (P x) then f x else 0) <$> l)
  == Qsum (f <$> filter P l).
Proof.
  induction l as [|x l IH]; [reflexivity|].
  rewrite filter_cons, fmap_cons, Qsum_cons, IH.
  destruct (decide (P x)); [rewrite fmap_cons, Qsum_cons; reflexivity|ring].
Qed.

Lemma Qsum_keys {V} (m : gmap K V) (g : K → Q) :
  Qsum ((λ item : K * V, g item.1) <$> map_to_list m) = Qsum (g <$> keys m).
Proof. unfold keys. by rewrite <- list_fmap_compose. Qed.

Lemma weighted_sum_split corpus page_rank P :
  weighted_sum corpus page_rank P
  == linkers_sum corpus page_rank P + dangling_sum corpus page_rank.
Proof.
  unfold weighted_sum, linkers_sum, dangling_sum, link_weight.
  rewrite <- !Qsum_filter_fmap, <- Qsum_plus.
  apply Qsum_ext. intros [page links] _. cbn [fst snd].
  repeat case_decide; unfold Qdiv; ring.
Qed.

Lemma Qn_inv_nonneg n : 0 <= 1 / Qn n.
Proof.
  unfold Qdiv. apply Qmult_le_0_compat; [lra|].
  apply Qinv_le_0_compat, Qn_nonneg.
Qed.

Lemma link_weight_nonneg N (P : K) links : 0 <= link_weight N P links.
Proof.
  unfold link_weight.
  pose proof (Qn_inv_nonneg (size links)). pose proof (Qn_inv_nonneg N).
  repeat case_decide; lra.
Qed.

(** Every page hands on the whole of its rank: the shares it gives to the
    pages of a closed graph add up to one. *)
Lemma link_weight_sum corpus links :
  corpus ≠ ∅ → links ⊆ dom corpus →
  Qsum ((λ P, link_weight (size corpus) P links) <$> keys corpus) == 1.
Proof.
  intros Hne Hsub. apply size_corpus_nonzero in Hne. unfold link_weight.
  rewrite Qsum_plus, Qsum_filter, Qsum_const, length_keys.
  rewrite length_filter_links by done.
  destruct (decide (links = ∅)) as [->|Hlinks].
  - rewrite size_empty, Qn_0.
    transitivity (Qn (size corpus) * (1 / Qn (size corpus)));
      [unfold Qdiv; ring|by field].
  - apply size_links_nonzero in Hlinks. by field.
Qed.

Lemma rank_of_next_ranks corpus D page_rank P :
  dom page_rank = dom corpus → P ∈ dom corpus →
  rank_of (next_ranks corpus D page_rank) P
  == (1 - D) / Qn (size corpus) + D * weighted_sum corpus page_rank P.
Proof.
  intros Hdom HP. unfold rank_of. rewrite next_ranks_lookup.
  rewrite <- Hdom in HP. apply elem_of_dom in HP as [old ->].
  destruct (new_rank_spec corpus D page_rank P Hdom) as (v & -> & Hv).
  exact Hv.
Qed.

Lemma weighted_sum_total corpus (g : K → Q) :
  closed_universe corpus → corpus ≠ ∅ →
  Qsum ((λ P, Qsum ((λ item : K * gset K,
                       g item.1 * link_weight (size corpus) P item.2)
                    <$> map_to_list corpus)) <$> keys corpus)
  == Qsum (g <$> keys corpus).
Proof.
  intros Hclosed Hne. rewrite Qsum_exchange, <- Qsum_keys.
  apply Qsum_ext. intros [page links] Hitem%elem_of_map_to_list.
  cbn [fst snd]. rewrite Qsum_scale, link_weight_sum; [ring|done|].
  by eapply Hclosed.
Qed.

Lemma total_over_corpus corpus (m : gmap K Q) :
  dom m = dom corpus → total m == Qsum (rank_of m <$> keys corpus).
Proof.
  intros Hdom. rewrite total_as_keys. apply Qsum_perm, fmap_Permutation.
  by apply keys_dom_eq.
Qed.

Lemma total_next_ranks corpus D page_rank :
  closed_universe corpus → corpus ≠ ∅ → dom page_rank = dom corpus →
  total (next_ranks corpus D page_rank) == (1 - D) + D * total page_rank.
Proof.
  intros Hclosed Hne Hdom.
  rewrite (total_over_corpus corpus) by (by apply dom_next_ranks).
  rewrite (total_over_corpus corpus page_rank) by done.
  rewrite (Qsum_ext _ (λ P, (1 - D) / Qn (size corpus)
                            + D * weighted_sum corpus page_rank P)).
  2:{ intros P HP%elem_of_keys. by apply rank_of_next_ranks. }
  rewrite Qsum_plus, Qsum_const, Qsum_scale, length_keys.
  unfold weighted_sum. rewrite (weighted_sum_total corpus) by done.
  apply size_corpus_nonzero in Hne. by field.
Qed.

Lemma total_iterate_init corpus :
  corpus ≠ ∅ → total (iterate_init corpus).1 == 1.
Proof.
  intros Hne. cbn [iterate_init fst].
  rewrite (total_pointwise _ (λ _, 1 / Qn (size corpus)) (keys corpus)).
  - rewrite Qsum_const, length_keys. apply size_corpus_nonzero in Hne.
    by field.
  - apply NoDup_keys.
  - intros P. rewrite assign_each_lookup. by case_decide.
Qed.

(** One round brings two snapshots closer together by the factor [D], in
    the sum of the absolute differences. *)
Lemma distance_next_ranks corpus D a b :
  closed_universe corpus → corpus ≠ ∅ → 0 <= D →
  dom a = dom corpus → dom b = dom corpus →
  distance corpus (next_ranks corpus D a) (next_ranks corpus D b)
  <= D * distance corpus a b.
Proof.
  intros Hclosed Hne HD Ha Hb. unfold distance at 2.
  rewrite <- (weighted_sum_total corpus
                (λ P, Qabs (rank_of a P - rank_of b P))) by done.
  rewrite <- Qsum_scale. apply Qsum_le. intros P HP%elem_of_keys.
  rewrite (rank_of_next_ranks corpus D a P), (rank_of_next_ranks corpus D b P)
    by done.
  setoid_replace ((1 - D) / Qn (size corpus) + D * weighted_sum corpus a P
                  - ((1 - D) / Qn (size corpus) + D * weighted_sum corpus b P))
    with (D * (weighted_sum corpus a P - weighted_sum corpus b P))
    using relation Qeq by ring.
  rewrite Qabs_Qmult, (Qabs_pos D) by done.
  rewrite !(Qmult_comm D). apply Qmult_le_compat_r; [|done].
  unfold weighted_sum. rewrite <- Qsum_minus.
  eapply Qle_trans; [apply Qsum_abs|]. apply Qle_lteq. right.
  apply Qsum_ext. intros [page links] _. cbn [fst snd].
  setoid_replace (rank_of a page * link_weight (size corpus) P links
                  - rank_of b page * link_weight (size corpus) P links)
    with ((rank_of a page - rank_of b page)
          * link_weight (size corpus) P links) using relation Qeq by ring.
  rewrite Qabs_Qmult, (Qabs_pos (link_weight _ _ _)); [reflexivity|].
  apply link_weight_nonneg.
Qed.

(** ** The rounds of [iterate_pagerank] *)

Lemma snapshots_succ corpus D k page_rank :
  snapshots corpus D (S k) page_rank
  = next_ranks corpus D (snapshots corpus D k page_rank).
Proof.
  revert page_rank. induction k as [|k IH]; intros page_rank; [done|].
  change (snapshots corpus D (S (S k)) page_rank)
    with (snapshots corpus D (S k) (next_ranks corpus D page_rank)).
  by rewrite IH.
Qed.

Lemma dom_snapshots corpus D k page_rank :
  dom page_rank = dom corpus →
  dom (snapshots corpus D k page_rank) = dom corpus.
Proof.
  revert page_rank. induction k as [|k IH]; intros page_rank Hdom; [done|].
  cbn [snapshots]. by apply IH, dom_next_ranks.
Qed.

Lemma dom_iterate_init corpus : dom (iterate_init corpus).1 = dom corpus.
Proof. apply dom_assign_each. Qed.

Lemma rounds_spec corpus D k :
  ∃ calculated_pr,
    rounds corpus D k
    = Some (snapshots corpus D k (iterate_init corpus).1, calculated_pr).
Proof.
  induction k as [|k [calc IH]].
  - by exists ∅.
  - destruct (round_spec corpus D (snapshots corpus D k (iterate_init corpus).1)
                calc) as (c & calc' & Hround & _).
    { apply dom_snapshots, dom_iterate_init. }
    exists calc'. cbn [rounds]. rewrite IH. cbn [mbind option_bind].
    rewrite Hround, snapshots_succ. done.
Qed.

Lemma total_snapshots corpus D k page_rank :
  closed_universe corpus → corpus ≠ ∅ → dom page_rank = dom corpus →
  total page_rank == 1 → total (snapshots corpus D k page_rank) == 1.
Proof.
  intros Hclosed Hne. revert page_rank.
  induction k as [|k IH]; intros page_rank Hdom Htotal; [done|].
  cbn [snapshots]. apply IH; [by apply dom_next_ranks|].
  rewrite total_next_ranks, Htotal by done. ring.
Qed.

Lemma Qpow_nonneg D k : 0 <= D → 0 <= Qpow D k.
Proof.
  intros HD. induction k as [|k IH]; cbn [Qpow]; [lra|].
  by apply Qmult_le_0_compat.
Qed.

Lemma distance_nonneg corpus a b : 0 <= distance corpus a b.
Proof. apply Qsum_nonneg. intros P _. apply Qabs_nonneg. Qed.

Lemma distance_snapshots corpus D k page_rank :
  closed_universe corpus → corpus ≠ ∅ → 0 <= D → dom page_rank = dom corpus →
  distance corpus (snapshots corpus D k page_rank)
                  (snapshots corpus D (S k) page_rank)
  <= Qpow D k * distance corpus page_rank (next_ranks corpus D page_rank).
Proof.
  intros Hclosed Hne HD. revert page_rank.
  induction k as [|k IH]; intros page_rank Hdom.
  - cbn [snapshots Qpow]. lra.
  - rewrite !snapshots_succ.
    eapply Qle_trans.
    { apply distance_next_ranks; [done..| |].
      - by apply dom_snapshots.
      - rewrite <- snapshots_succ. by apply dom_snapshots. }
    rewrite <- snapshots_succ. cbn [Qpow]. rewrite <- Qmult_assoc.
    rewrite !(Qmult_comm D). apply Qmult_le_compat_r; [|done]. by apply IH.
Qed.

Lemma changed_distance corpus a b :
  dom a = dom corpus → changed a b → tolerance < distance corpus a b.
Proof.
  intros Hdom (P & o & n & Ho & Hn & Hgt).
  eapply Qlt_le_trans; [exact Hgt|]. unfold distance.
  rewrite <- (rank_of_lookup a P o Ho), <- (rank_of_lookup b P n Hn).
  apply (Qsum_elem_le (λ P, Qabs (rank_of a P - rank_of b P))).
  - intros ? _. apply Qabs_nonneg.
  - apply elem_of_keys. rewrite <- Hdom. apply elem_of_dom. eauto.
Qed.

Lemma Qpow_bernoulli D k :
  0 <= D → D <= 1 → Qpow D k * (1 + Qn k * (1 - D)) <= 1.
Proof.
  intros H0 H1. induction k as [|k IH].
  - cbn [Qpow]. rewrite Qn_0. lra.
  - cbn [Qpow]. rewrite Qn_S.
    pose proof (Qpow_nonneg D k H0) as Hp. pose proof (Qn_nonneg k) as Hk.
    assert (0 <= Qpow D k * ((Qn k + 1) * ((1 - D) * (1 - D)))) as Hsq.
    { apply Qmult_le_0_compat; [done|].
      apply Qmult_le_0_compat; [lra|]. apply Qmult_le_0_compat; lra. }
    setoid_replace (D * Qpow D k * (1 + (Qn k + 1) * (1 - D)))
      with (Qpow D k * (1 + Qn k * (1 - D))
            - Qpow D k * ((Qn k + 1) * ((1 - D) * (1 - D))))
      using relation Qeq by ring.
    lra.
Qed.

Lemma Qpow_small D B :
  0 <= D → D < 1 → 0 <= B → ∃ k, Qpow D k * B <= tolerance.
Proof.
  intros H0 H1 HB.
  set (k := Z.to_nat (Qceiling (1000 * B / (1 - D)))). exists k.
  pose proof (Qpow_bernoulli D k H0 ltac:(lra)) as Hbern.
  pose proof (Qpow_nonneg D k H0) as Hp.
  assert (1000 * B <= Qn k * (1 - D)) as Hk.
  { assert (1000 * B / (1 - D) <= Qn k) as Hceil.
    { eapply Qle_trans; [apply Qle_ceiling|]. unfold k, Qn.
      rewrite <- Zle_Qle. lia. }
    setoid_replace (1000 * B) with (1000 * B / (1 - D) * (1 - D))
      using relation Qeq by (field; lra).
    apply Qmult_le_compat_r; [done|lra]. }
  assert (Qpow D k * (1000 * B) <= Qpow D k * (Qn k * (1 - D))) as Hmul.
  { rewrite !(Qmult_comm (Qpow D k)). by apply Qmult_le_compat_r. }
  unfold tolerance. lra.
Qed.

Lemma snapshots_converge corpus D page_rank :
  closed_universe corpus → corpus ≠ ∅ → 0 <= D → D < 1 →
  dom page_rank = dom corpus →
  ∃ k, ¬ changed (snapshots corpus D k page_rank)
                 (snapshots corpus D (S k) page_rank).
Proof.
  intros Hclosed Hne H0 H1 Hdom.
  destruct (Qpow_small D
              (distance corpus page_rank (next_ranks corpus D page_rank)))
    as [k Hk]; [done..|apply distance_nonneg|].
  exists k. intros Hch%(changed_distance corpus); [|by apply dom_snapshots].
  pose proof (distance_snapshots corpus D k page_rank Hclosed Hne H0 Hdom).
  lra.
Qed.

(** The loop stops after the first round in which no page changes by more
    than the tolerance, and returns the snapshot of that round. *)
Lemma while_condition_spec corpus D k page_rank calculated_pr :
  dom page_rank = dom corpus →
  ¬ changed (snapshots corpus D k page_rank)
            (snapshots corpus D (S k) page_rank) →
  ∃ j, (j ≤ k)%nat
    ∧ (∀ i, (i ≤ j)%nat →
         changed (snapshots corpus D i page_rank)
                 (snapshots corpus D (S i) page_rank) ↔ (i < j)%nat)
    ∧ ∀ fuel,
        while_condition corpus D fuel true (page_rank, calculated_pr)
        = if decide (j < fuel)%nat
          then Some (snapshots corpus D (S j) page_rank) else None.
Proof.
  revert page_rank calculated_pr.
  induction k as [|k IH]; intros page_rank calculated_pr Hdom Hstop;
    destruct (round_spec corpus D page_rank calculated_pr Hdom)
      as (c & calc' & Hround & Hc).
  - exists 0%nat. split_and!; [done| |].
    + intros i Hi. assert (i = 0%nat) as -> by lia. split; [done|lia].
    + destruct c; [exfalso; by apply Hstop, Hc|].
      intros [|fuel]; [done|]. cbn [while_condition]. rewrite Hround.
      cbn [mbind option_bind]. rewrite decide_True by lia. by destruct fuel.
  - destruct c.
    + destruct (IH (next_ranks corpus D page_rank) calc')
        as (j & Hj & Hbefore & Hfuel); [by apply dom_next_ranks|done|].
      exists (S j). split_and!; [lia| |].
      * intros [|i] Hi.
        -- split; [lia|]. intros _. by apply Hc.
        -- cbn [snapshots] in *. rewrite (Hbefore i) by lia. lia.
      * intros [|fuel]; [done|]. cbn [while_condition]. rewrite Hround.
        cbn [mbind option_bind]. rewrite Hfuel.
        destruct (decide (j < fuel)%nat).
        -- by rewrite decide_True by lia.
        -- by rewrite decide_False by lia.
    + exists 0%nat. split_and!; [lia| |].
      * intros i Hi. assert (i = 0%nat) as -> by lia. split; [|lia].
        intros Hch. apply Hc in Hch. done.
      * intros [|fuel]; [done|]. cbn [while_condition]. rewrite Hround.
        cbn [mbind option_bind]. rewrite decide_True by lia. by destruct fuel.
Qed.

Lemma iterate_pagerank_unfold fuel corpus D :
  corpus ≠ ∅ →
  iterate_pagerank fuel corpus D
  = while_condition corpus D fuel true (iterate_init corpus).
Proof.
  intros Hne%map_size_non_empty_iff. unfold iterate_pagerank.
  by rewrite decide_False.
Qed.

(** The number of rounds [iterate_pagerank] runs and what it returns. *)
Lemma iterate_pagerank_spec corpus D :
  closed_universe corpus → corpus ≠ ∅ → 0 <= D → D < 1 →
  ∃ j,
    (∀ i, (i ≤ j)%nat →
       changed (snapshots corpus D i (iterate_init corpus).1)
               (snapshots corpus D (S i) (iterate_init corpus).1)
       ↔ (i < j)%nat)
    ∧ ∀ fuel,
        iterate_pagerank fuel corpus D
        = if decide (j < fuel)%nat
          then Some (snapshots corpus D (S j) (iterate_init corpus).1)
          else None.
Proof.
  intros Hclosed Hne H0 H1.
  destruct (snapshots_converge corpus D (iterate_init corpus).1)
    as [k Hk]; [done..|apply dom_iterate_init|].
  destruct (while_condition_spec corpus D k (iterate_init corpus).1
              (iterate_init corpus).2)
    as (j & _ & Hbefore & Hfuel); [apply dom_iterate_init|done|].
  exists j. split; [done|]. intros fuel.
  rewrite iterate_pagerank_unfold by done.
  rewrite <- Hfuel. by destruct (iterate_init corpus).
Qed.

Lemma sample_pagerank_spec corpus (damping_factor : Q) (n : Z) (rng : nat → Q) :
  closed_universe corpus → corpus ≠ ∅ → (1 ≤ n)%Z →
  ∃ counters,
    sample_pagerank corpus damping_factor n rng
    = Some ((λ count, inject_Z count / inject_Z n) <$> counters)
    ∧ dom counters = dom corpus
    ∧ visits_total counters = (n - 1)%Z.
Proof.
  intros Hclosed Hne Hn.
  destruct (sample_init_spec corpus rng Hne)
    as (start & Hstart & Hin & Hdom & Hzero).
  destruct (sample_loop_spec corpus damping_factor rng (Z.to_nat (n - 1))
              (sample_init corpus start))
    as (st & Hloop & Hdom' & _ & Htotal & _); [done..|].
  exists (visits st). split_and!; [|done|lia].
  unfold sample_pagerank. rewrite Hstart. cbn [mbind option_bind].
  fold (sample_init corpus start). rewrite Hloop. cbn [mbind option_bind].
  apply normalize_nonzero. lia.
Qed.

Lemma inject_Z_pos (n : Z) : (1 ≤ n)%Z → 0 < inject_Z n.
Proof. intros Hn. change 0 with (inject_Z 0). rewrite <- Zlt_Qlt. lia. Qed.

Lemma inject_Z_pred_div (n : Z) :
  (1 ≤ n)%Z → inject_Z (n - 1) / inject_Z n == 1 - 1 / inject_Z n.
Proof.
  intros Hn%inject_Z_pos. unfold Z.sub. rewrite inject_Z_plus.
  change (inject_Z (- (1))) with (- (1)). field. lra.
Qed.

(** ** Claims about [iterate_pagerank] and about both estimators *)

(** C2. Each round of [iterate_pagerank] -- the pass through the loop body
    that takes the state after [k] rounds to the state after [k + 1]
    rounds -- gives every page [P] of the graph a new rank equal to
    [(1 - D) / N], plus [D] times the sum over the pages [Q] linking to [P]
    of [old rank(Q) / outDegree(Q)], plus [D] times the sum over the pages
    [Q] without outgoing links of [old rank(Q) / N], all read from the
    snapshot [page_rank] the round started from (the dangling term is the
    same for every page).  This holds for every graph. *)
Theorem round_recurrence corpus (D : Q) (k : nat) :
  ∃ page_rank calculated_pr condition page_rank' calculated_pr',
    rounds corpus D k = Some (page_rank, calculated_pr)
    ∧ round corpus D (page_rank, calculated_pr)
      = Some (condition, (page_rank', calculated_pr'))
    ∧ rounds corpus D (S k) = Some (page_rank', calculated_pr')
    ∧ ∀ P, P ∈ dom corpus →
        ∃ rank, page_rank' !! P = Some rank
          ∧ rank == rank_recurrence corpus D page_rank P.
Proof.
  destruct (rounds_spec corpus D k) as [calc Hk].
  set (page_rank := snapshots corpus D k (iterate_init corpus).1) in *.
  assert (dom page_rank = dom corpus) as Hdom
    by apply dom_snapshots, dom_iterate_init.
  destruct (round_spec corpus D page_rank calc Hdom)
    as (c & calc' & Hround & _).
  exists page_rank, calc, c, (next_ranks corpus D page_rank), calc'.
  split_and!; [done..| |].
  - cbn [rounds]. rewrite Hk. cbn [mbind option_bind]. by rewrite Hround.
  - intros P HP. rewrite next_ranks_lookup.
    rewrite <- Hdom in HP. apply elem_of_dom in HP as [old ->].
    destruct (new_rank_spec corpus D page_rank P Hdom) as (v & -> & Hv).
    exists v. split; [done|]. rewrite Hv, weighted_sum_split.
    unfold rank_recurrence. ring.
Qed.

(** C4. On a non-empty link graph, with a damping factor in (0,1) and a
    sample count [n] of at least 1, whatever the random draws,
    [sample_pagerank] returns ranks that sum to [1 - 1/n] and so never to
    1, against its description (all values should sum to 1): the sum is
    further than [1/100] from 1 for every [n] below 100 (it is 1/2 at
    [n = 2]) and within [1/100] of 1 only from [n = 100] on.  The ranks
    returned by [iterate_pagerank] sum to 1 (in exact arithmetic). *)
Theorem estimators_sums corpus (damping_factor : Q) (n : Z) (rng : nat → Q) :
  closed_universe corpus → corpus ≠ ∅ →
  0 < damping_factor → damping_factor < 1 → (1 ≤ n)%Z →
  (∃ ranks,
     sample_pagerank corpus damping_factor n rng = Some ranks
     ∧ total ranks == 1 - 1 / inject_Z n
     ∧ ¬ total ranks == 1
     ∧ ((n < 100)%Z → ¬ Qabs (total ranks - 1) <= 1 # 100)
     ∧ ((100 ≤ n)%Z → Qabs (total ranks - 1) <= 1 # 100))
  ∧ (∃ k ranks,
       (∀ fuel, (k < fuel)%nat →
          iterate_pagerank fuel corpus damping_factor = Some ranks)
       ∧ total ranks == 1).
Proof.
  intros Hclosed Hne H0 H1 Hn. split.
  - destruct (sample_pagerank_spec corpus damping_factor n rng)
      as (counters & Hrun & _ & Htotal); [done..|].
    eexists. split; [exact Hrun|].
    assert (total ((λ count, inject_Z count / inject_Z n) <$> counters)
            == 1 - 1 / inject_Z n) as Hsum.
    { rewrite total_normalized, Htotal. by apply inject_Z_pred_div. }
    pose proof (inject_Z_pos n Hn) as Hpos.
    assert (0 < 1 / inject_Z n) as Hshort.
    { apply Qlt_shift_div_l; [done|lra]. }
    assert (Qabs (total ((λ count, inject_Z count / inject_Z n) <$> counters)
                  - 1) == 1 / inject_Z n) as Habs.
    { rewrite Hsum.
      setoid_replace (1 - 1 / inject_Z n - 1) with (- (1 / inject_Z n))
        using relation Qeq by ring.
      rewrite Qabs_opp, Qabs_pos; [reflexivity|]. by apply Qlt_le_weak. }
    split_and!; [done| | |].
    + rewrite Hsum. intros Hone.
      assert (1 / inject_Z n == 0) as Hzero by
        (transitivity (1 - (1 - 1 / inject_Z n)); [ring|rewrite Hone; ring]).
      rewrite Hzero in Hshort. by apply Qlt_irrefl in Hshort.
    + intros Hsmall. rewrite Habs. apply Qlt_not_le.
      apply Qlt_shift_div_l; [done|].
      assert (inject_Z n < 100) as Hlt.
      { change 100 with (inject_Z 100). by rewrite <- Zlt_Qlt. }
      lra.
    + intros Hbig. rewrite Habs.
      apply Qle_shift_div_r; [done|].
      assert (100 <= inject_Z n) as Hle.
      { change 100 with (inject_Z 100). by rewrite <- Zle_Qle. }
      lra.
  - destruct (iterate_pagerank_spec corpus damping_factor)
      as (j & _ & Hfuel); [done|done|lra|done|].
    exists j, (snapshots corpus damping_factor (S j) (iterate_init corpus).1).
    split.
    + intros fuel Hlt. by rewrite Hfuel, decide_True.
    + apply total_snapshots; [done|done|apply dom_iterate_init|].
      by apply total_iterate_init.
Qed.

(** C5, as amended. On a non-empty link graph and with a damping factor in
    (0,1), [iterate_pagerank] terminates: there is a number [k] such that
    the first [k] rounds each change some page's rank by more than 0.001,
    round [k + 1] changes no page's rank by more than 0.001, and the
    snapshot of round [k + 1] is what is returned (given fuel for more than
    [k] rounds; with less, the fuel runs out). *)
Theorem iterate_pagerank_terminates corpus (damping_factor : Q) :
  closed_universe corpus → corpus ≠ ∅ →
  0 < damping_factor → damping_factor < 1 →
  ∃ k st,
    rounds corpus damping_factor (S k) = Some st
    ∧ (∀ fuel,
         iterate_pagerank fuel corpus damping_factor
         = if decide (k < fuel)%nat then Some st.1 else None)
    ∧ ∀ i, (i ≤ k)%nat →
        ∃ old new,
          rounds corpus damping_factor i = Some old
          ∧ rounds corpus damping_factor (S i) = Some new
          ∧ (changed old.1 new.1 ↔ (i < k)%nat).
Proof.
  intros Hclosed Hne H0 H1.
  destruct (iterate_pagerank_spec corpus damping_factor)
    as (j & Hbefore & Hfuel); [done|done|lra|done|].
  destruct (rounds_spec corpus damping_factor (S j)) as [calc Hj].
  exists j, (snapshots corpus damping_factor (S j) (iterate_init corpus).1,
             calc).
  split_and!; [done|done|].
  intros i Hi.
  destruct (rounds_spec corpus damping_factor i) as [calc1 Hi1].
  destruct (rounds_spec corpus damping_factor (S i)) as [calc2 Hi2].
  eexists _, _. split_and!; [done..|]. by apply Hbefore.
Qed.

(** C8, as amended. On a non-empty link graph and with a damping factor in
    (0,1), one more round applied to the result of [iterate_pagerank]
    changes every page's rank by at most [damping_factor * N * 0.001],
    [N] being the number of pages. *)
Theorem one_more_round_bound corpus (damping_factor : Q) :
  closed_universe corpus → corpus ≠ ∅ →
  0 < damping_factor → damping_factor < 1 →
  ∃ k ranks,
    (∀ fuel, (k < fuel)%nat →
       iterate_pagerank fuel corpus damping_factor = Some ranks)
    ∧ ∀ calculated_pr,
        ∃ condition st,
          round corpus damping_factor (ranks, calculated_pr)
          = Some (condition, st)
          ∧ ∀ P old new,
              ranks !! P = Some old → st.1 !! P = Some new →
              Qabs (old - new)
              <= damping_factor * Qn (size corpus) * tolerance.
Proof.
  intros Hclosed Hne H0 H1.
  destruct (iterate_pagerank_spec corpus damping_factor)
    as (j & Hbefore & Hfuel); [done|done|lra|done|].
  set (prev := snapshots corpus damping_factor j (iterate_init corpus).1).
  set (ranks := snapshots corpus damping_factor (S j) (iterate_init corpus).1).
  assert (dom prev = dom corpus) as Hprev
    by apply dom_snapshots, dom_iterate_init.
  assert (dom ranks = dom corpus) as Hranks
    by apply dom_snapshots, dom_iterate_init.
  assert (ranks = next_ranks corpus damping_factor prev) as Hnext
    by apply snapshots_succ.
  exists j, ranks. split.
  { intros fuel Hlt. by rewrite Hfuel, decide_True. }
  intros calc.
  destruct (round_spec corpus damping_factor ranks calc Hranks)
    as (c & calc' & Hround & _).
  eexists _, _. split; [exact Hround|]. cbn [fst].
  intros P old new Hold Hnew.
  assert (¬ changed prev ranks) as Hstop.
  { intros Hch. apply (Hbefore j) in Hch; lia. }
  assert (distance corpus prev ranks <= Qn (size corpus) * tolerance) as Hlast.
  { unfold distance. rewrite <- length_keys, <- Qsum_const.
    apply Qsum_le. intros Q HQ%elem_of_keys.
    apply Qnot_lt_le. intros Hgt. apply Hstop.
    pose proof HQ as HQ'. rewrite <- Hprev in HQ.
    apply elem_of_dom in HQ as [o Ho]. rewrite <- Hranks in HQ'.
    apply elem_of_dom in HQ' as [n Hn]. exists Q, o, n.
    rewrite (rank_of_lookup prev Q o Ho), (rank_of_lookup ranks Q n Hn) in Hgt.
    done. }
  pose proof (distance_next_ranks corpus damping_factor prev ranks
                Hclosed Hne ltac:(lra) Hprev Hranks) as Hstep.
  rewrite <- Hnext in Hstep.
  assert (Qabs (old - new)
          <= distance corpus ranks (next_ranks corpus damping_factor ranks))
    as Hone.
  { rewrite <- (rank_of_lookup ranks P old Hold).
    rewrite <- (rank_of_lookup _ P new Hnew).
    apply (Qsum_elem_le (λ P, Qabs (rank_of ranks P - rank_of _ P))).
    - intros ? _. apply Qabs_nonneg.
    - apply elem_of_keys. rewrite <- Hranks. apply elem_of_dom. eauto. }
  assert (damping_factor * distance corpus prev ranks
          <= damping_factor * (Qn (size corpus) * tolerance)) as Hscale.
  { rewrite !(Qmult_comm damping_factor).
    apply Qmult_le_compat_r; [done|lra]. }
  lra.
Qed.


(** ** A graph with a single page *)

Lemma closed_universe_single (p : K) : closed_universe {[p := ∅]}.
Proof. apply map_Forall_singleton, empty_subseteq. Qed.

Lemma sample_pagerank_single (p : K) (d : Q) (n : Z) (rng : nat → Q) :
  (1 ≤ n)%Z →
  sample_pagerank {[p := ∅]} d n rng
  = Some {[p := inject_Z (n - 1) / inject_Z n]}.
Proof.
  intros Hn.
  destruct (sample_pagerank_spec {[p := ∅]} d n rng)
    as (counters & -> & Hdom & Htotal);
    [apply closed_universe_single|apply insert_non_empty|done|].
  rewrite dom_singleton_L in Hdom.
  apply dom_singleton_inv_L in Hdom as [v ->].
  unfold visits_total in Htotal. rewrite map_to_list_singleton in Htotal.
  cbn in Htotal. rewrite Z.add_0_r in Htotal. subst v.
  by rewrite map_fmap_singleton.
Qed.

Lemma round_changed corpus D page_rank calculated_pr st :
  dom page_rank = dom corpus →
  round corpus D (page_rank, calculated_pr) = Some (true, st) →
  changed page_rank st.1.
Proof.
  intros Hdom Hround.
  destruct (round_spec corpus D page_rank calculated_pr Hdom)
    as (c & calc' & Hround' & Hc).
  rewrite Hround in Hround'. injection Hround' as <- ->. by apply Hc.
Qed.

Lemma dom_while_condition corpus D fuel (condition : bool) page_rank
    calculated_pr ranks :
  dom page_rank = dom corpus →
  while_condition corpus D fuel condition (page_rank, calculated_pr)
  = Some ranks →
  dom ranks = dom corpus.
Proof.
  revert condition page_rank calculated_pr.
  induction fuel as [|fuel IH]; intros [] page_rank calculated_pr Hdom Hrun;
    cbn [while_condition] in Hrun; try (by simplify_eq).
  destruct (round_spec corpus D page_rank calculated_pr Hdom)
    as (c & calc' & Hround & _).
  rewrite Hround in Hrun. cbn [mbind option_bind] in Hrun.
  eapply IH; [|exact Hrun]. by apply dom_next_ranks.
Qed.

Lemma dom_iterate_pagerank fuel corpus D ranks :
  iterate_pagerank fuel corpus D = Some ranks → dom ranks = dom corpus.
Proof.
  unfold iterate_pagerank. case_decide; [done|].
  apply dom_while_condition, dom_assign_each.
Qed.

End properties.

(** * The claims on the example graphs *)

Ltac by_compute := apply (bool_decide_unpack _); vm_compute; exact I.

(** The distribution on the chain, from its first page. *)
Lemma transition_model_distribution_witness :
  closed_universe chain_corpus
  ∧ "a.html"%string ∈ dom chain_corpus
  ∧ ∃ links dist,
      chain_corpus !! "a.html"%string = Some links
      ∧ transition_model chain_corpus "a.html"%string DAMPING = Some dist
      ∧ ∀ q, q ∈ dom chain_corpus →
          dist !! q
          = Some (if decide (links = ∅) then 1 / Qn (size chain_corpus)
                  else if decide (q ∈ links)
                       then (1 - DAMPING) / Qn (size chain_corpus)
                            + DAMPING / Qn (size links)
                       else (1 - DAMPING) / Qn (size chain_corpus)).
Proof.
  split_and!; [by_compute|by_compute|].
  apply (transition_model_distribution chain_corpus "a.html"%string DAMPING);
    by_compute.
Defined.

(** The sum of the distribution on the chain, from its last page (which has
    no outgoing links). *)
Lemma transition_model_sums_to_one_witness :
  closed_universe chain_corpus
  ∧ "c.html"%string ∈ dom chain_corpus
  ∧ ∃ dist,
      transition_model chain_corpus "c.html"%string DAMPING = Some dist
      ∧ dom dist = dom chain_corpus
      ∧ total dist == 1.
Proof.
  split_and!; [by_compute|by_compute|].
  apply (transition_model_sums_to_one chain_corpus "c.html"%string DAMPING);
    by_compute.
Defined.

(** Failure and success of [transition_model]: a page that is not in the
    chain, the empty graph, a link that leaves the graph, and a page of
    the chain. *)
Lemma transition_model_failure_witness :
  ("d.html"%string ∉ dom chain_corpus)
  ∧ transition_model chain_corpus "d.html"%string DAMPING = None
  ∧ transition_model (∅ : gmap string (gset string)) "a.html"%string DAMPING
    = None
  ∧ open_corpus !! "a.html"%string = Some {[ "x.html"%string ]}
  ∧ ("x.html"%string ∉ dom open_corpus)
  ∧ transition_model open_corpus "a.html"%string DAMPING = None
  ∧ chain_corpus !! "b.html"%string = Some {[ "c.html"%string ]}
  ∧ ({[ "c.html"%string ]} : gset string) ⊆ dom chain_corpus
  ∧ ∃ dist,
      transition_model chain_corpus "b.html"%string DAMPING = Some dist
      ∧ dom dist = dom chain_corpus
      ∧ (∀ q, q ∈ dom chain_corpus →
           dist !! q
           = Some (transition_value chain_corpus {[ "c.html"%string ]}
                     DAMPING q))
      ∧ total dist == 1.
Proof.
  split_and!;
    [by_compute| | |by_compute|by_compute| |by_compute|by_compute|].
  - destruct (transition_model_failure chain_corpus "d.html"%string DAMPING)
      as (Hmissing & _ & _ & _).
    apply Hmissing. by_compute.
  - destruct (transition_model_failure ∅ "a.html"%string DAMPING)
      as (_ & Hempty & _ & _).
    by apply Hempty.
  - destruct (transition_model_failure open_corpus "a.html"%string DAMPING)
      as (_ & _ & Hopen & _).
    apply (Hopen {[ "x.html"%string ]} "x.html"%string); by_compute.
  - destruct (transition_model_failure chain_corpus "b.html"%string DAMPING)
      as (_ & _ & _ & Hreturns).
    apply Hreturns; by_compute.
Defined.

(** The current page is a key of a non-empty graph and [transition_model]
    still raises: the page links to a page that is not a key, and
    [dist[link] += ...] fails on it. *)
Lemma transition_model_open_corpus :
  open_corpus ≠ ∅
  ∧ "a.html"%string ∈ dom open_corpus
  ∧ transition_model open_corpus "a.html"%string DAMPING = None.
Proof. split_and!; by_compute. Qed.



(** A single sample on the chain. *)
Lemma sample_pagerank_one_sample_witness :
  chain_corpus ≠ ∅
  ∧ ∃ start r,
      choice (constant_rng 0%nat) (keys chain_corpus) = Some start
      ∧ sample_loop chain_corpus DAMPING constant_rng (Z.to_nat (1 - 1))
          (sample_init chain_corpus start)
        = Some (sample_init chain_corpus start)
      ∧ sample_pagerank chain_corpus DAMPING 1 constant_rng = Some r
      ∧ dom r = dom chain_corpus
      ∧ (∀ q, q ∈ dom chain_corpus → r !! q = Some 0)
      ∧ total r == 0.
Proof.
  split; [by_compute|].
  apply (sample_pagerank_one_sample chain_corpus DAMPING constant_rng).
  by_compute.
Defined.

(** The sums of both estimators on the chain with two samples: the sampled
    ranks sum to 1/2. *)
Lemma estimators_sums_witness :
  closed_universe chain_corpus
  ∧ chain_corpus ≠ ∅
  ∧ 0 < DAMPING
  ∧ DAMPING < 1
  ∧ (1 ≤ 2)%Z
  ∧ (2 < 100)%Z
  ∧ (∃ ranks,
       sample_pagerank chain_corpus DAMPING 2 constant_rng = Some ranks
       ∧ total ranks == 1 - 1 / inject_Z 2
       ∧ ¬ total ranks == 1
       ∧ ¬ Qabs (total ranks - 1) <= 1 # 100)
  ∧ (∃ k ranks,
       (∀ fuel, (k < fuel)%nat →
          iterate_pagerank fuel chain_corpus DAMPING = Some ranks)
       ∧ total ranks == 1).
Proof.
  assert (closed_universe chain_corpus) as Hclosed by by_compute.
  assert (chain_corpus ≠ ∅) as Hne by by_compute.
  destruct (estimators_sums chain_corpus DAMPING 2 constant_rng)
    as ((ranks & Hrun & Hsum & Hnot & Hsmall & _) & Hiterate);
    [done|done|reflexivity|reflexivity|lia|].
  split_and!; [done|done|reflexivity|reflexivity|lia|lia| |done].
  exists ranks. split_and!; [done..|]. apply Hsmall. lia.
Defined.

(** Termination with a result fails on the empty graph, which satisfies the
    closed-universe invariant: [iterate_pagerank] raises (a division by
    zero in [(1 - D) / N]) and returns nothing. *)
Lemma iterate_pagerank_empty_corpus :
  closed_universe (∅ : gmap string (gset string))
  ∧ 0 < DAMPING ∧ DAMPING < 1
  ∧ ∀ fuel,
      iterate_pagerank fuel (∅ : gmap string (gset string)) DAMPING = None.
Proof. split_and!; [apply map_Forall_empty|reflexivity|reflexivity|done]. Qed.

(** Termination on the chain. *)
Lemma iterate_pagerank_terminates_witness :
  closed_universe chain_corpus
  ∧ chain_corpus ≠ ∅
  ∧ 0 < DAMPING
  ∧ DAMPING < 1
  ∧ ∃ k st,
      rounds chain_corpus DAMPING (S k) = Some st
      ∧ (∀ fuel,
           iterate_pagerank fuel chain_corpus DAMPING
           = if decide (k < fuel)%nat then Some st.1 else None)
      ∧ ∀ i, (i ≤ k)%nat →
          ∃ old new,
            rounds chain_corpus DAMPING i = Some old
            ∧ rounds chain_corpus DAMPING (S i) = Some new
            ∧ (changed old.1 new.1 ↔ (i < k)%nat).
Proof.
  split_and!; [by_compute|by_compute|reflexivity|reflexivity|].
  apply (iterate_pagerank_terminates chain_corpus DAMPING);
    solve [by_compute|reflexivity].
Defined.

(** C7. On the graph with the single page ["1.html"], damping 0.85 and two
    samples, [sample_pagerank] returns rank 1/2 for the page, whatever the
    random draws; [iterate_pagerank] returns rank 1. *)
Theorem single_page_ranks (rng : nat → Q) :
  sample_pagerank single_corpus DAMPING 2 rng
  = Some {[ "1.html"%string := 1 # 2 ]}
  ∧ ¬ (1 # 2 == 1)
  ∧ ∃ rank,
      iterate_pagerank 1 single_corpus DAMPING
      = Some {[ "1.html"%string := rank ]}
      ∧ rank == 1.
Proof.
  split_and!.
  - apply (sample_pagerank_single "1.html"%string DAMPING 2 rng). lia.
  - discriminate.
  - eexists. split; [vm_compute; reflexivity|reflexivity].
Qed.

(** The result need not be a fixed point within the tolerance: on
    [five_corpus] with damping 0.85, [iterate_pagerank] converges in five
    rounds, and one more round then changes some page's rank by more than
    0.001. *)
Lemma one_more_round_exceeds_tolerance :
  closed_universe five_corpus
  ∧ no_self_links five_corpus
  ∧ ∃ ranks st,
      iterate_pagerank 5 five_corpus DAMPING = Some ranks
      ∧ round five_corpus DAMPING (ranks, ∅) = Some (true, st)
      ∧ changed ranks st.1.
Proof.
  split_and!; [by_compute|by_compute|].
  assert ((ranks ← iterate_pagerank 5 five_corpus DAMPING;
           fst <$> round five_corpus DAMPING (ranks, ∅)) = Some true)
    as Hrun by (vm_compute; reflexivity).
  destruct (iterate_pagerank 5 five_corpus DAMPING) as [ranks|] eqn:Hranks;
    [|done].
  cbn [mbind option_bind] in Hrun.
  destruct (round five_corpus DAMPING (ranks, ∅)) as [[c st]|] eqn:Hround;
    [|done].
  injection Hrun as ->. exists ranks, st. split_and!; [done..|].
  eapply round_changed; [|exact Hround].
  by eapply dom_iterate_pagerank.
Qed.

(** The bound on one more round, on [five_corpus]. *)
Lemma one_more_round_bound_witness :
  closed_universe five_corpus
  ∧ five_corpus ≠ ∅
  ∧ 0 < DAMPING
  ∧ DAMPING < 1
  ∧ ∃ k ranks,
      (∀ fuel, (k < fuel)%nat →
         iterate_pagerank fuel five_corpus DAMPING = Some ranks)
      ∧ ∀ calculated_pr,
          ∃ condition st,
            round five_corpus DAMPING (ranks, calculated_pr)
            = Some (condition, st)
            ∧ ∀ P old new,
                ranks !! P = Some old → st.1 !! P = Some new →
                Qabs (old - new)
                <= DAMPING * Qn (size five_corpus) * tolerance.
Proof.
  split_and!; [by_compute|by_compute|reflexivity|reflexivity|].
  apply (one_more_round_bound five_corpus DAMPING);
    solve [by_compute|reflexivity].
Defined.

(** * Further properties: the crawler *)

Section crawl_properties.
Variable findall : string → list string.

Implicit Types (pages : gmap string (gset string)).
Implicit Types (entries : list (string * option string)).

Lemma readable_cons filename file entries :
  readable ((filename, file) :: entries)
  ↔ (endswith filename ".html" = true → is_Some file) ∧ readable entries.
Proof.
  unfold readable. split.
  - intros Hall. split.
    + intros Hhtml. apply (Hall filename file); [left|done].
    + intros name f Hin. apply Hall. by right.
  - intros [Hhead Htail] name f [[= -> ->]|Hin]%elem_of_cons; eauto.
Qed.

Lemma read_pages_is_Some entries pages :
  is_Some (for_each (read_page findall) pages entries) ↔ readable entries.
Proof.
  revert pages. induction entries as [|[filename file] entries IH];
    intros pages.
  - split; [|by eexists]. intros _ name f Hin. by apply elem_of_nil in Hin.
  - rewrite readable_cons. cbn [for_each read_page].
    destruct (endswith filename ".html"); cbn [negb].
    + destruct file as [contents|]; cbn [mbind option_bind].
      * rewrite IH. split; [by eauto|tauto].
      * split; [by intros [? ?]|]. intros [Hfile _].
        by destruct Hfile.
    + cbn [mbind option_bind]. rewrite IH. split; [split; [done|tauto]|tauto].
Qed.

(** The first loop, entry by entry: what it does to one file name. *)
Lemma read_pages_lookup entries pages pages' filename :
  for_each (read_page findall) pages entries = Some pages' →
  filename ∉ entries.*1 → pages' !! filename = pages !! filename.
Proof.
  revert pages. induction entries as [|[name file] entries IH];
    intros pages Hrun Hnot.
  - by injection Hrun as <-.
  - cbn [for_each read_page] in Hrun. rewrite fmap_cons in Hnot.
    apply not_elem_of_cons in Hnot as [Hne Hnot]. cbn [fst] in Hne.
    destruct (endswith name ".html"); cbn [negb] in Hrun.
    + destruct file as [contents|]; [|done].
      cbn [mbind option_bind] in Hrun.
      rewrite (IH _ Hrun Hnot). by rewrite lookup_insert_ne.
    + cbn [mbind option_bind] in Hrun. by apply (IH _ Hrun).
Qed.

Lemma read_pages_dom entries pages pages' filename :
  for_each (read_page findall) pages entries = Some pages' →
  filename ∈ dom pages'
  ↔ filename ∈ dom pages
    ∨ (endswith filename ".html" = true ∧ filename ∈ entries.*1).
Proof.
  revert pages. induction entries as [|[name file] entries IH];
    intros pages Hrun.
  - injection Hrun as <-. rewrite fmap_nil. split; [by left|].
    intros [?|[_ []%not_elem_of_nil]]. done.
  - cbn [for_each read_page] in Hrun. rewrite fmap_cons. cbn [fst].
    destruct (endswith name ".html") eqn:Hhtml; cbn [negb] in Hrun.
    + destruct file as [contents|]; [|done].
      cbn [mbind option_bind] in Hrun.
      rewrite (IH _ Hrun), dom_insert_L, elem_of_union, elem_of_singleton,
        elem_of_cons.
      split.
      * intros [[->|?]|[? ?]]; auto.
      * intros [?|[? [->|?]]]; auto.
    + cbn [mbind option_bind] in Hrun. rewrite (IH _ Hrun), elem_of_cons.
      split.
      * intros [?|[? ?]]; auto.
      * intros [?|[Hf [->|?]]]; auto. congruence.
Qed.

Lemma read_pages_no_self_links entries pages pages' :
  for_each (read_page findall) pages entries = Some pages' →
  no_self_links pages → no_self_links pages'.
Proof.
  revert pages. induction entries as [|[name file] entries IH];
    intros pages Hrun Hpages.
  - by injection Hrun as <-.
  - cbn [for_each read_page] in Hrun.
    destruct (endswith name ".html"); cbn [negb] in Hrun.
    + destruct file as [contents|]; [|done].
      cbn [mbind option_bind] in Hrun. apply (IH _ Hrun).
      apply map_Forall_insert_2; [|done].
      rewrite elem_of_difference, elem_of_singleton. tauto.
    + cbn [mbind option_bind] in Hrun. by apply (IH _ Hrun).
Qed.

Lemma read_pages_links entries pages pages' filename contents :
  for_each (read_page findall) pages entries = Some pages' →
  NoDup entries.*1 → (filename, Some contents) ∈ entries →
  endswith filename ".html" = true →
  pages' !! filename
  = Some (list_to_set (findall contents) ∖ {[filename]}).
Proof.
  revert pages. induction entries as [|[name file] entries IH];
    intros pages Hrun Hnd Hin Hhtml.
  - by apply elem_of_nil in Hin.
  - rewrite fmap_cons in Hnd. apply NoDup_cons in Hnd as [Hfresh Hnd].
    cbn [fst] in Hfresh. cbn [for_each read_page] in Hrun.
    apply elem_of_cons in Hin as [[= <- <-]|Hin].
    + rewrite Hhtml in Hrun. cbn [negb mbind option_bind] in Hrun.
      rewrite (read_pages_lookup _ _ _ _ Hrun Hfresh).
      by rewrite lookup_insert_eq.
    + destruct (endswith name ".html"); cbn [negb] in Hrun.
      * destruct file as [c|]; [|done]. cbn [mbind option_bind] in Hrun.
        by apply (IH _ Hrun).
      * cbn [mbind option_bind] in Hrun. by apply (IH _ Hrun).
Qed.

Lemma read_pages_filter entries pages :
  for_each (read_page findall) pages entries
  = for_each (read_page findall) pages
      (filter (λ entry, endswith entry.1 ".html" = true) entries).
Proof.
  revert pages. induction entries as [|[name file] entries IH];
    intros pages; [done|].
  rewrite filter_cons. cbn [fst]. destruct (endswith name ".html") eqn:Hhtml.
  - rewrite decide_True by done. cbn [for_each].
    destruct (read_page findall pages (name, file)); [|done].
    cbn [mbind option_bind]. apply IH.
  - rewrite decide_False by done. cbn [for_each read_page].
    rewrite Hhtml. cbn [negb mbind option_bind]. apply IH.
Qed.

(** The second loop keeps, in every page, the links to crawled pages. *)
Lemma keep_known_loop pages ks :
  NoDup ks → (∀ k, k ∈ ks → k ∈ dom pages) →
  ∃ pages',
    for_each keep_known pages ks = Some pages'
    ∧ dom pages' = dom pages
    ∧ ∀ k, pages' !! k
           = if decide (k ∈ ks)
             then filter (λ link, link ∈ dom pages) <$> pages !! k
             else pages !! k.
Proof.
  intros Hnd. revert pages.
  induction Hnd as [|a ks Ha Hnd IH]; intros pages Hin.
  - exists pages. split_and!; [done..|]. intros k.
    by rewrite decide_False by apply not_elem_of_nil.
  - assert (a ∈ dom pages) as [links Hlinks]%elem_of_dom
      by (apply Hin; left).
    set (pages1 := <[a := filter (λ link, link ∈ dom pages) links]> pages).
    assert (dom pages1 = dom pages) as Hdom1.
    { unfold pages1. rewrite dom_insert_L.
      apply subseteq_union_1_L, singleton_subseteq_l, elem_of_dom. eauto. }
    destruct (IH pages1) as (pages' & Hrun & Hdom & Hget).
    { intros k Hk. rewrite Hdom1. apply Hin. by right. }
    exists pages'. split_and!.
    + cbn [for_each].
      assert (keep_known pages a = Some pages1) as ->
        by (unfold keep_known; by rewrite Hlinks).
      exact Hrun.
    + by rewrite Hdom, Hdom1.
    + intros k. rewrite Hget, Hdom1. unfold pages1.
      destruct (decide (k = a)) as [->|Hne].
      * rewrite lookup_insert_eq, decide_False, decide_elem_of_cons_eq by done.
        by rewrite Hlinks.
      * by rewrite lookup_insert_ne, decide_elem_of_cons_ne.
Qed.

(** [crawl] in one piece: the pages read by the first loop, each with its
    links restricted to the crawled pages. *)
Lemma crawl_spec (fs : file_system) directory corpus :
  crawl findall fs directory = Some corpus ↔
  ∃ entries pages,
    fs directory = Some entries
    ∧ for_each (read_page findall) ∅ entries = Some pages
    ∧ corpus = (filter (λ link, link ∈ dom pages)) <$> pages.
Proof.
  unfold crawl. destruct (fs directory) as [entries|];
    cbn [mbind option_bind]; [|split; [done|by intros (? & ? & ? & _)]].
  destruct (for_each (read_page findall) ∅ entries) as [pages|] eqn:Hread;
    cbn [mbind option_bind];
    [|split; [done|intros (? & ? & [= <-] & ? & _); congruence]].
  destruct (keep_known_loop pages (keys pages)) as (pages' & -> & _ & Hget);
    [apply NoDup_keys|by intros k ?%elem_of_keys|].
  assert (pages' = (filter (λ link, link ∈ dom pages)) <$> pages) as ->.
  { apply map_eq. intros k. rewrite Hget, lookup_fmap.
    case_decide as Hk; [done|].
    rewrite elem_of_keys, not_elem_of_dom in Hk. by rewrite Hk. }
  split.
  - intros [= <-]. by exists entries, pages.
  - intros (? & ? & [= <-] & Hread' & ->). rewrite Hread in Hread'.
    by injection Hread' as <-.
Qed.

End crawl_properties.

Section crawl_results.
Variable findall : string → list string.

(** X1. [crawl] returns a corpus exactly when the directory can be listed
    and every entry whose name ends in [.html] can be opened and read;
    otherwise it raises.  Entries with other names are never opened. *)
Theorem crawl_returns (fs : file_system) (directory : string) :
  is_Some (crawl findall fs directory)
  ↔ ∃ entries, fs directory = Some entries ∧ readable entries.
Proof.
  split.
  - intros [corpus (entries & pages & Hfs & Hread & _)%crawl_spec].
    exists entries. split; [done|].
    apply (read_pages_is_Some findall entries ∅). by rewrite Hread.
  - intros (entries & Hfs & [pages Hread]%(read_pages_is_Some findall _ ∅)).
    eexists. apply crawl_spec. by exists entries, pages.
Qed.

(** X2. Whatever the files contain, the corpus that [crawl] returns is a
    link graph: every link leads to a page of the corpus, and no page links
    to itself. *)
Theorem crawl_link_graph (fs : file_system) (directory : string) corpus :
  crawl findall fs directory = Some corpus →
  closed_universe corpus ∧ no_self_links corpus.
Proof.
  intros (entries & pages & _ & Hread & ->)%crawl_spec. split.
  - intros filename links'. rewrite lookup_fmap.
    destruct (pages !! filename) as [links|]; [|done]. intros [= <-].
    intros link [Hlink _]%elem_of_filter. by rewrite dom_fmap_L.
  - assert (no_self_links pages) as Hself.
    { apply (read_pages_no_self_links findall entries ∅); [done|].
      apply map_Forall_empty. }
    intros filename links'. rewrite lookup_fmap.
    destruct (pages !! filename) as [links|] eqn:Hlinks; [|done].
    intros [= <-] [_ Hin]%elem_of_filter. by apply (Hself filename links).
Qed.

(** X3. The pages of the crawled corpus are exactly the directory entries
    whose name ends in [.html]. *)
Theorem crawl_pages (fs : file_system) (directory : string) entries corpus :
  fs directory = Some entries →
  crawl findall fs directory = Some corpus →
  ∀ filename,
    filename ∈ dom corpus
    ↔ endswith filename ".html" = true ∧ filename ∈ entries.*1.
Proof.
  intros Hfs (entries' & pages & Hfs' & Hread & ->)%crawl_spec filename.
  rewrite Hfs in Hfs'. injection Hfs' as <-.
  rewrite dom_fmap_L, (read_pages_dom findall entries ∅ pages) by done.
  rewrite dom_empty_L. split; [|by right].
  intros [[]%not_elem_of_empty|?]. done.
Qed.

(** X4. In a directory listing without repeated names, the links of a
    crawled page are exactly the link targets found in its file that are
    other pages of the corpus: links to the page itself and links to
    anything that is not a crawled page are dropped, nothing else is. *)
Theorem crawl_links (fs : file_system) (directory : string) entries corpus
    filename contents :
  fs directory = Some entries → NoDup entries.*1 →
  crawl findall fs directory = Some corpus →
  (filename, Some contents) ∈ entries →
  endswith filename ".html" = true →
  ∃ links,
    corpus !! filename = Some links
    ∧ ∀ link,
        link ∈ links
        ↔ link ∈ findall contents ∧ link ≠ filename ∧ link ∈ dom corpus.
Proof.
  intros Hfs Hnd (entries' & pages & Hfs' & Hread & ->)%crawl_spec Hin Hhtml.
  rewrite Hfs in Hfs'. injection Hfs' as <-.
  eexists. split.
  - rewrite lookup_fmap.
    rewrite (read_pages_links findall entries ∅ pages filename contents)
      by done.
    reflexivity.
  - intros link. rewrite elem_of_filter, elem_of_difference,
      elem_of_list_to_set, elem_of_singleton, dom_fmap_L.
    tauto.
Qed.

(** X5. Entries whose name does not end in [.html] make no difference:
    two directories with the same [.html] entries crawl to the same
    result. *)
Theorem crawl_ignores_other_entries (fs1 fs2 : file_system)
    (directory1 directory2 : string) entries1 entries2 :
  fs1 directory1 = Some entries1 → fs2 directory2 = Some entries2 →
  filter (λ entry, endswith entry.1 ".html" = true) entries1
  = filter (λ entry, endswith entry.1 ".html" = true) entries2 →
  crawl findall fs1 directory1 = crawl findall fs2 directory2.
Proof.
  intros Hfs1 Hfs2 Hsame. unfold crawl. rewrite Hfs1, Hfs2.
  cbn [mbind option_bind].
  by rewrite (read_pages_filter findall entries1),
    (read_pages_filter findall entries2), Hsame.
Qed.

End crawl_results.

(** * Further properties: the transition model and the estimators *)

Section further_properties.
Context {K : Type} `{!EqDecision K} `{!Countable K}.

Implicit Types (corpus : gmap K (gset K)) (page link : K).
Implicit Types (links : gset K).
Implicit Types (dist page_rank calculated_pr : gmap K Q).

(** X6. [transition_model] returns a distribution exactly when the current
    page is a key of the corpus and every page it links to is a key as
    well; otherwise a subscript raises.  (The links of the other pages do
    not matter.) *)
Theorem transition_model_returns corpus page (damping_factor : Q) :
  is_Some (transition_model corpus page damping_factor)
  ↔ ∃ links, corpus !! page = Some links ∧ links ⊆ dom corpus.
Proof.
  split.
  - intros Hsome. destruct (corpus !! page) as [links|] eqn:Hpage.
    + exists links. split; [done|].
      destruct (decide (set_Forall (λ link, link ∈ dom corpus) links))
        as [Hall|Hnot]; [by apply elem_of_subseteq|].
      apply not_set_Forall_Exists in Hnot as (link & Hlink & Hopen);
        [|apply _].
      rewrite (transition_model_open_link corpus page damping_factor
                 links link) in Hsome by done.
      by destruct Hsome.
    + unfold transition_model in Hsome. rewrite Hpage in Hsome.
      by destruct Hsome.
  - intros (links & Hpage & Hsub).
    destruct (transition_model_lookup corpus page damping_factor links)
      as (dist & -> & _); eauto.
Qed.

Lemma transition_value_positive corpus links (d : Q) (q : K) :
  corpus ≠ ∅ → 0 <= d → d < 1 → 0 < transition_value corpus links d q.
Proof.
  intros Hne%map_size_non_empty_iff H0 H1.
  assert (0 < Qn (size corpus)) as HN by (apply Qn_pos; lia).
  assert (0 < 1 / Qn (size corpus)) by (by apply Qlt_shift_div_l; lra).
  assert (0 < (1 - d) / Qn (size corpus)) by (apply Qlt_shift_div_l; lra).
  assert (0 <= d / Qn (size links)).
  { unfold Qdiv. apply Qmult_le_0_compat; [done|].
    apply Qinv_le_0_compat, Qn_nonneg. }
  unfold transition_value. repeat case_decide; lra.
Qed.

(** X7. With a damping factor that is at least 0 and below 1, every page
    of a link graph gets a positive probability from [transition_model]:
    the surfer can reach every page in one step. *)
Theorem transition_model_positive corpus page (damping_factor : Q) :
  closed_universe corpus → page ∈ dom corpus →
  0 <= damping_factor → damping_factor < 1 →
  ∃ dist,
    transition_model corpus page damping_factor = Some dist
    ∧ ∀ q, q ∈ dom corpus → ∃ p, dist !! q = Some p ∧ 0 < p.
Proof.
  intros Hclosed Hin H0 H1. pose proof Hin as [links Hpage]%elem_of_dom.
  destruct (transition_model_lookup corpus page damping_factor links)
    as (dist & Hrun & Hget); [done|by eapply Hclosed|].
  exists dist. split; [done|]. intros q Hq. eexists. split.
  - rewrite Hget, decide_True by (by apply elem_of_keys). reflexivity.
  - apply transition_value_positive; [|done..].
    intros ->. by rewrite lookup_empty in Hpage.
Qed.

(** X8. On a link graph and with a damping factor in (0,1),
    [sample_pagerank] returns ranks exactly when the corpus is not empty
    and the sample count is not 0: an empty corpus makes [random.choice]
    raise, a sample count of 0 makes the final division raise.  (A
    negative sample count is accepted.) *)
Theorem sample_pagerank_returns corpus (damping_factor : Q) (n : Z)
    (rng : nat → Q) :
  closed_universe corpus → 0 < damping_factor → damping_factor < 1 →
  is_Some (sample_pagerank corpus damping_factor n rng)
  ↔ corpus ≠ ∅ ∧ n ≠ 0%Z.
Proof.
  intros Hclosed _ _. split.
  - intros Hsome. assert (corpus ≠ ∅) as Hne.
    { intros ->. unfold sample_pagerank, keys, choice in Hsome.
      rewrite map_to_list_empty in Hsome. by destruct Hsome. }
    split; [done|]. intros ->.
    destruct (sample_init_spec corpus rng Hne)
      as (start & Hstart & Hin & Hdom & _).
    unfold sample_pagerank in Hsome. rewrite Hstart in Hsome.
    change (Z.to_nat (0 - 1)) with 0%nat in Hsome.
    cbn [mbind option_bind sample_loop] in Hsome.
    unfold normalize in Hsome. rewrite decide_True in Hsome.
    + by destruct Hsome.
    + split; [done|]. cbn [visits]. intros Hempty.
      apply Hne, dom_empty_iff_L. rewrite <- Hdom. cbn [sample_init visits].
      rewrite Hempty. apply dom_empty_L.
  - intros [Hne Hn].
    destruct (sample_init_spec corpus rng Hne)
      as (start & Hstart & Hin & Hdom & _).
    destruct (sample_loop_spec corpus damping_factor rng (Z.to_nat (n - 1))
                (sample_init corpus start))
      as (st & Hloop & _); [done..|].
    unfold sample_pagerank. rewrite Hstart. cbn [mbind option_bind].
    fold (sample_init corpus start). rewrite Hloop. cbn [mbind option_bind].
    rewrite normalize_nonzero by done. eauto.
Qed.

Lemma Zsum_elem_le (l : list Z) (x : Z) :
  Forall (λ y, 0 ≤ y)%Z l → x ∈ l → (x ≤ Zsum l)%Z.
Proof.
  induction 1 as [|y l Hy Hl IH]; intros Hx; [by apply elem_of_nil in Hx|].
  assert (0 ≤ Zsum l)%Z.
  { clear IH Hx. induction Hl as [|z l Hz Hl IH]; [done|].
    rewrite Zsum_cons. lia. }
  rewrite Zsum_cons. apply elem_of_cons in Hx as [->|Hx]; [lia|].
  specialize (IH Hx). lia.
Qed.

Lemma visits_le_total (m : gmap K Z) p c :
  map_Forall (λ _ count, 0 ≤ count)%Z m → m !! p = Some c →
  (c ≤ visits_total m)%Z.
Proof.
  intros Hall Hp. apply Zsum_elem_le.
  - apply Forall_fmap, Forall_forall. intros [k v] Hkv%elem_of_map_to_list.
    by apply (Hall k v).
  - apply list_elem_of_fmap. exists (p, c). split; [done|].
    by apply elem_of_map_to_list.
Qed.

Lemma sample_loop_nonneg corpus d rng steps st :
  closed_universe corpus →
  dom (visits st) = dom corpus → sample_page st ∈ dom corpus →
  map_Forall (λ _ count, 0 ≤ count)%Z (visits st) →
  ∃ st', sample_loop corpus d rng steps st = Some st'
    ∧ map_Forall (λ _ count, 0 ≤ count)%Z (visits st').
Proof.
  intros Hclosed. revert st.
  induction steps as [|steps IH]; intros st Hdom Hpage Hall.
  - by exists st.
  - destruct (sample_step_spec corpus d rng st)
      as (c & next & Hc & Hnext & Hstep); [done..|].
    edestruct (IH (Sampler (<[sample_page st := (c + 1)%Z]> (visits st))
                     next (S (drawn st))))
      as (st' & Hloop & Hall').
    { cbn [visits]. rewrite dom_insert_L, Hdom.
      by apply subseteq_union_1_L, singleton_subseteq_l. }
    { done. }
    { cbn [visits]. apply map_Forall_insert_2; [|done].
      specialize (Hall _ _ Hc). cbn in Hall. lia. }
    exists st'. split; [|done]. cbn [sample_loop]. rewrite Hstep. exact Hloop.
Qed.

(** X9. On a non-empty link graph and for a sample count [n] of at least 1,
    whatever the random draws, [sample_pagerank] returns one rank for every
    page of the corpus, and every rank is at least 0 and below 1. *)
Theorem sample_pagerank_ranks corpus (damping_factor : Q) (n : Z)
    (rng : nat → Q) :
  closed_universe corpus → corpus ≠ ∅ → (1 ≤ n)%Z →
  ∃ ranks,
    sample_pagerank corpus damping_factor n rng = Some ranks
    ∧ dom ranks = dom corpus
    ∧ ∀ page rank, ranks !! page = Some rank → 0 <= rank ∧ rank < 1.
Proof.
  intros Hclosed Hne Hn.
  destruct (sample_init_spec corpus rng Hne)
    as (start & Hstart & Hin & Hdom & Hzero).
  destruct (sample_loop_spec corpus damping_factor rng (Z.to_nat (n - 1))
              (sample_init corpus start))
    as (st & Hloop & Hdom' & _ & Htotal & _); [done..|].
  destruct (sample_loop_nonneg corpus damping_factor rng (Z.to_nat (n - 1))
              (sample_init corpus start))
    as (st' & Hloop' & Hall); [done..| |].
  { intros k v. cbn [sample_init visits]. rewrite assign_each_lookup.
    case_decide; [|by rewrite lookup_empty]. by intros [= <-]. }
  rewrite Hloop in Hloop'. injection Hloop' as <-.
  eexists. split_and!.
  - unfold sample_pagerank. rewrite Hstart. cbn [mbind option_bind].
    fold (sample_init corpus start). rewrite Hloop. cbn [mbind option_bind].
    apply normalize_nonzero. lia.
  - by rewrite dom_fmap_L.
  - intros page rank. rewrite lookup_fmap.
    destruct (visits st !! page) as [c|] eqn:Hc; [|done]. intros [= <-].
    pose proof (Hall _ _ Hc) as Hc0. cbn in Hc0.
    pose proof (visits_le_total _ _ _ Hall Hc) as Hle.
    rewrite Htotal, Hzero in Hle.
    assert (0 < inject_Z n) by (apply inject_Z_pos; lia).
    assert (0 <= inject_Z c)
      by (change 0 with (inject_Z 0); rewrite <- Zle_Qle; lia).
    assert (inject_Z c < inject_Z n) by (rewrite <- Zlt_Qlt; lia).
    split.
    + apply Qle_shift_div_l; [done|]. lra.
    + apply Qlt_shift_div_r; [done|]. lra.
Qed.

Lemma weighted_sum_nonneg corpus page_rank (P : K) :
  (∀ Q, 0 <= rank_of page_rank Q) → 0 <= weighted_sum corpus page_rank P.
Proof.
  intros Hpos. apply Qsum_nonneg. intros [page links] _. cbn [fst snd].
  apply Qmult_le_0_compat; [apply Hpos|apply link_weight_nonneg].
Qed.

Lemma next_ranks_lower corpus D page_rank (P : K) :
  dom page_rank = dom corpus → P ∈ dom corpus → 0 <= D →
  (∀ Q, 0 <= rank_of page_rank Q) →
  (1 - D) / Qn (size corpus) <= rank_of (next_ranks corpus D page_rank) P.
Proof.
  intros Hdom HP HD Hpos. rewrite rank_of_next_ranks by done.
  pose proof (weighted_sum_nonneg corpus page_rank P Hpos).
  assert (0 <= D * weighted_sum corpus page_rank P)
    by (by apply Qmult_le_0_compat).
  lra.
Qed.

Lemma rank_of_nonneg_outside corpus page_rank (P : K) :
  dom page_rank = dom corpus → P ∉ dom corpus → rank_of page_rank P = 0.
Proof.
  intros Hdom HP. rewrite <- Hdom in HP. apply not_elem_of_dom in HP.
  unfold rank_of. by rewrite HP.
Qed.

Lemma snapshots_nonneg corpus D k page_rank :
  corpus ≠ ∅ → dom page_rank = dom corpus → 0 <= D → D <= 1 →
  (∀ Q, 0 <= rank_of page_rank Q) →
  ∀ Q, 0 <= rank_of (snapshots corpus D k page_rank) Q.
Proof.
  intros Hne. revert page_rank.
  induction k as [|k IH]; intros page_rank Hdom H0 H1 Hpos; [done|].
  cbn [snapshots]. apply IH; [by apply dom_next_ranks|done..|].
  intros Q. destruct (decide (Q ∈ dom corpus)) as [HQ|HQ].
  - eapply Qle_trans; [|by apply next_ranks_lower].
    apply map_size_non_empty_iff in Hne.
    assert (0 < Qn (size corpus)) by (apply Qn_pos; lia).
    apply Qle_shift_div_l; [done|]. lra.
  - rewrite (rank_of_nonneg_outside corpus); [lra| |done].
    by apply dom_next_ranks.
Qed.

Lemma rank_of_iterate_init corpus (P : K) :
  rank_of (iterate_init corpus).1 P
  = if decide (P ∈ keys corpus) then 1 / Qn (size corpus) else 0.
Proof.
  unfold rank_of. cbn [iterate_init fst]. rewrite assign_each_lookup.
  by case_decide.
Qed.

(** X11. On a non-empty link graph and with a damping factor in (0,1),
    [iterate_pagerank] returns one rank for every page of the corpus, and
    every rank is at least [(1 - damping_factor) / N] and at most 1. *)
Theorem iterate_pagerank_ranks corpus (damping_factor : Q) :
  closed_universe corpus → corpus ≠ ∅ →
  0 < damping_factor → damping_factor < 1 →
  ∃ k ranks,
    (∀ fuel, (k < fuel)%nat →
       iterate_pagerank fuel corpus damping_factor = Some ranks)
    ∧ dom ranks = dom corpus
    ∧ ∀ page rank,
        ranks !! page = Some rank →
        (1 - damping_factor) / Qn (size corpus) <= rank ∧ rank <= 1.
Proof.
  intros Hclosed Hne H0 H1.
  destruct (iterate_pagerank_spec corpus damping_factor)
    as (j & _ & Hfuel); [done|done|lra|done|].
  set (prev := snapshots corpus damping_factor j (iterate_init corpus).1).
  set (ranks := snapshots corpus damping_factor (S j) (iterate_init corpus).1).
  assert (dom prev = dom corpus) as Hprev
    by apply dom_snapshots, dom_iterate_init.
  assert (dom ranks = dom corpus) as Hranks
    by apply dom_snapshots, dom_iterate_init.
  assert (ranks = next_ranks corpus damping_factor prev) as Hnext
    by apply snapshots_succ.
  assert (∀ Q, 0 <= rank_of (iterate_init corpus).1 Q) as Hinit.
  { intros Q. rewrite rank_of_iterate_init.
    case_decide; [apply Qn_inv_nonneg|lra]. }
  exists j, ranks. split_and!; [|done|].
  { intros fuel Hlt. by rewrite Hfuel, decide_True. }
  intros page rank Hrank.
  assert (page ∈ dom corpus) as Hpage
    by (rewrite <- Hranks; apply elem_of_dom; eauto).
  rewrite <- (rank_of_lookup ranks page rank Hrank). split.
  - rewrite Hnext. apply next_ranks_lower; [done|done|lra|].
    apply snapshots_nonneg; [done|apply dom_iterate_init|lra|lra|done].
  - assert (total ranks == 1) as Htotal.
    { apply total_snapshots; [done|done|apply dom_iterate_init|].
      by apply total_iterate_init. }
    rewrite (total_over_corpus corpus) in Htotal by done.
    rewrite <- Htotal. apply (Qsum_elem_le (rank_of ranks)).
    + intros Q _.
      apply snapshots_nonneg; [done|apply dom_iterate_init|lra|lra|done].
    + by apply elem_of_keys.
Qed.

(** X12. One round of [iterate_pagerank] on a non-empty link graph takes a
    [page_rank] with total [t] to one with total [(1 - D) + D * t],
    whatever the ranks are: a total of 1 is preserved exactly, and any
    other total moves towards 1 when [D] is in (0,1). *)
Theorem round_total corpus (D : Q) page_rank calculated_pr :
  closed_universe corpus → corpus ≠ ∅ → dom page_rank = dom corpus →
  ∃ condition page_rank' calculated_pr',
    round corpus D (page_rank, calculated_pr)
    = Some (condition, (page_rank', calculated_pr'))
    ∧ dom page_rank' = dom corpus
    ∧ total page_rank' == (1 - D) + D * total page_rank.
Proof.
  intros Hclosed Hne Hdom.
  destruct (round_spec corpus D page_rank calculated_pr Hdom)
    as (c & calc' & Hround & _).
  exists c, (next_ranks corpus D page_rank), calc'.
  split_and!; [done|by apply dom_next_ranks|by apply total_next_ranks].
Qed.

(** X13. One round of [iterate_pagerank] on a non-empty link graph, with
    [D] at least 0, brings any two rank assignments closer together: the
    sum over all pages of the absolute difference of their ranks shrinks at
    least by the factor [D]. *)
Theorem round_contraction corpus (D : Q) a b calc_a calc_b :
  closed_universe corpus → corpus ≠ ∅ → 0 <= D →
  dom a = dom corpus → dom b = dom corpus →
  ∃ cond_a cond_b a' b' calc_a' calc_b',
    round corpus D (a, calc_a) = Some (cond_a, (a', calc_a'))
    ∧ round corpus D (b, calc_b) = Some (cond_b, (b', calc_b'))
    ∧ distance corpus a' b' <= D * distance corpus a b.
Proof.
  intros Hclosed Hne HD Ha Hb.
  destruct (round_spec corpus D a calc_a Ha) as (ca & calc_a' & Hra & _).
  destruct (round_spec corpus D b calc_b Hb) as (cb & calc_b' & Hrb & _).
  exists ca, cb, (next_ranks corpus D a), (next_ranks corpus D b),
    calc_a', calc_b'.
  split_and!; [done..|]. by apply distance_next_ranks.
Qed.

(** X14. On a non-empty corpus in which no page has any link and with a
    damping factor in (0,1), [iterate_pagerank] stops after its first
    round and gives every page the rank [1 / N] (in exact arithmetic). *)
Theorem iterate_pagerank_no_links corpus (damping_factor : Q) (fuel : nat) :
  map_Forall (λ _ links, links = ∅) corpus → corpus ≠ ∅ →
  0 < damping_factor → damping_factor < 1 →
  ∃ ranks,
    iterate_pagerank (S fuel) corpus damping_factor = Some ranks
    ∧ dom ranks = dom corpus
    ∧ ∀ page rank, ranks !! page = Some rank → rank == 1 / Qn (size corpus).
Proof.
  intros Hnone Hne _ _.
  set (init := (iterate_init corpus).1).
  set (ranks := next_ranks corpus damping_factor init).
  assert (dom init = dom corpus) as Hinit by apply dom_iterate_init.
  assert (dom ranks = dom corpus) as Hranks by (by apply dom_next_ranks).
  assert (∀ P, P ∈ dom corpus → rank_of ranks P == 1 / Qn (size corpus))
    as Huniform.
  { intros P HP. unfold ranks. rewrite rank_of_next_ranks by done.
    unfold weighted_sum.
    rewrite (Qsum_ext _ (λ _, 1 / Qn (size corpus) * (1 / Qn (size corpus)))).
    - rewrite Qsum_const, length_map_to_list.
      apply size_corpus_nonzero in Hne. by field.
    - intros [page links] Hitem%elem_of_map_to_list. cbn [fst snd].
      rewrite (Hnone page links Hitem). unfold link_weight, init.
      rewrite rank_of_iterate_init.
      rewrite decide_True
        by (apply elem_of_keys, elem_of_dom; eauto).
      rewrite decide_False by apply not_elem_of_empty.
      rewrite decide_True by done. ring. }
  assert (¬ changed init ranks) as Hstop.
  { intros (P & o & n & Ho & Hn & Hgt).
    assert (P ∈ dom corpus) as HP
      by (rewrite <- Hinit; apply elem_of_dom; eauto).
    pose proof (Huniform P HP) as Hn'.
    rewrite (rank_of_lookup ranks P n Hn) in Hn'.
    pose proof (rank_of_iterate_init corpus P) as Ho'.
    fold init in Ho'. rewrite (rank_of_lookup init P o Ho) in Ho'.
    rewrite decide_True in Ho' by (by apply elem_of_keys).
    subst o. unfold tolerance in Hgt.
    assert (Qabs (1 / Qn (size corpus) - n) == 0) as Hzero.
    { rewrite Hn'. setoid_replace (1 / Qn (size corpus) - 1 / Qn (size corpus))
        with 0 using relation Qeq by ring. reflexivity. }
    rewrite Hzero in Hgt. lra. }
  destruct (while_condition_spec corpus damping_factor 0 init
              (iterate_init corpus).2)
    as (j & Hj & _ & Hfuel); [done|done|].
  assert (j = 0%nat) as -> by lia.
  exists ranks. split_and!; [|done|].
  - rewrite iterate_pagerank_unfold by done.
    destruct (iterate_init corpus) as [i c] eqn:Hi. cbn [fst snd] in *.
    subst init. rewrite Hfuel, decide_True by lia. done.
  - intros page rank Hrank.
    rewrite <- (rank_of_lookup ranks page rank Hrank). apply Huniform.
    rewrite <- Hranks. apply elem_of_dom. eauto.
Qed.

End further_properties.


(** * Further properties: the command line *)

Section main_properties.
Variable findall : string → list string.
Variable format4 : Q → string.

Lemma closed_universe_keep_known (pages : gmap string (gset string)) :
  closed_universe ((filter (λ link, link ∈ dom pages)) <$> pages).
Proof.
  intros filename links'. rewrite lookup_fmap.
  destruct (pages !! filename) as [links|]; [|done]. intros [= <-].
  intros link [Hlink _]%elem_of_filter. by rewrite dom_fmap_L.
Qed.

Lemma sorted_keys_dom {V W} (m1 : gmap string V) (m2 : gmap string W) :
  dom m1 = dom m2 →
  merge_sort String.le (keys m1) = merge_sort String.le (keys m2).
Proof.
  intros Hdom. apply (Sorted_unique String.le).
  - apply Sorted_merge_sort, _.
  - apply Sorted_merge_sort, _.
  - rewrite !merge_sort_Permutation. by apply keys_dom_eq.
Qed.

Lemma print_loop (ranks : gmap string Q) (pages out : list string) :
  (∀ page, page ∈ pages → page ∈ dom ranks) →
  for_each (λ out page,
              rank ← ranks !! page; Some (out ++ [rank_line format4 page rank]))
           out pages
  = Some (out ++ ((λ page, rank_line format4 page (rank_of ranks page))
                    <$> pages)).
Proof.
  revert out. induction pages as [|page pages IH]; intros out Hin.
  - by rewrite fmap_nil, app_nil_r.
  - assert (page ∈ dom ranks) as [rank Hrank]%elem_of_dom
      by (apply Hin; left).
    cbn [for_each]. rewrite Hrank. cbn [mbind option_bind].
    rewrite IH by (intros; apply Hin; by right).
    rewrite fmap_cons, (rank_of_lookup ranks page rank Hrank).
    by rewrite <- app_assoc.
Qed.

Lemma print_ranks_spec (ranks : gmap string Q) (out : list string) :
  print_ranks format4 ranks out
  = Some (out ++ ((λ page, rank_line format4 page (rank_of ranks page))
                    <$> merge_sort String.le (keys ranks))).
Proof.
  apply print_loop. intros page Hpage. apply elem_of_keys.
  by rewrite merge_sort_Permutation in Hpage.
Qed.

(** X15. Called with one argument that names a directory which can be
    listed, whose [.html] entries can all be read and which has at least
    one such entry, [main] runs to its end, given enough fuel for the
    iteration.  It prints the sampling header, one line for every [.html]
    entry in ascending order of the names, the iteration header, and again
    one line for every [.html] entry in the same order; the ranks in the
    lines are those of [sample_pagerank] and [iterate_pagerank] on the
    crawled corpus. *)
Theorem main_prints (program directory : string) (fs : file_system)
    entries (rng : nat → Q) :
  fs directory = Some entries → readable entries →
  (∃ filename, filename ∈ entries.*1 ∧ endswith filename ".html" = true) →
  ∃ corpus sampled iterated pages k,
    crawl findall fs directory = Some corpus
    ∧ sample_pagerank corpus DAMPING SAMPLES rng = Some sampled
    ∧ Sorted String.le pages
    ∧ NoDup pages
    ∧ (∀ filename,
         filename ∈ pages
         ↔ endswith filename ".html" = true ∧ filename ∈ entries.*1)
    ∧ ∀ fuel, (k < fuel)%nat →
        iterate_pagerank fuel corpus DAMPING = Some iterated
        ∧ main findall format4 [program; directory] fs rng fuel
          = ("PageRank Results from Sampling (n = 10000)"%string
               :: ((λ page, rank_line format4 page (rank_of sampled page))
                     <$> pages)
             ++ "PageRank Results from Iteration"%string
               :: ((λ page, rank_line format4 page (rank_of iterated page))
                     <$> pages),
             Done).
Proof.
  intros Hfs [raw Hread]%(read_pages_is_Some findall _ ∅)
    (html & Hlisted & Hhtml).
  set (corpus := (filter (λ link, link ∈ dom raw)) <$> raw).
  assert (crawl findall fs directory = Some corpus) as Hcrawl
    by (apply crawl_spec; by exists entries, raw).
  assert (∀ filename,
            filename ∈ dom corpus
            ↔ endswith filename ".html" = true ∧ filename ∈ entries.*1)
    as Hpages.
  { intros filename. unfold corpus.
    rewrite dom_fmap_L, (read_pages_dom findall entries ∅ raw) by done.
    rewrite dom_empty_L. split; [|by right].
    intros [[]%not_elem_of_empty|?]. done. }
  assert (closed_universe corpus) as Hclosed
    by apply closed_universe_keep_known.
  assert (corpus ≠ ∅) as Hne.
  { intros Hempty. apply (not_elem_of_empty (C := gset string) html).
    rewrite <- (dom_empty_L (M := gmap string) (A := gset string)), <- Hempty.
    by apply Hpages. }
  destruct (sample_pagerank_spec corpus DAMPING SAMPLES rng)
    as (counters & Hsample & Hdoms & _); [done..|].
  destruct (iterate_pagerank_spec corpus DAMPING)
    as (k & _ & Hfuel); [done..|].
  set (iterated := snapshots corpus DAMPING (S k) (iterate_init corpus).1).
  assert (dom iterated = dom corpus) as Hdomi
    by apply dom_snapshots, dom_iterate_init.
  eexists corpus, _, iterated, (merge_sort String.le (keys corpus)), k.
  split_and!; [done|exact Hsample|..].
  - apply Sorted_merge_sort, _.
  - rewrite merge_sort_Permutation. apply NoDup_keys.
  - intros filename. by rewrite merge_sort_Permutation, elem_of_keys.
  - intros fuel Hlt.
    assert (iterate_pagerank fuel corpus DAMPING = Some iterated) as Hiter
      by (by rewrite Hfuel, decide_True).
    split; [done|]. unfold main. rewrite decide_False by (cbn; lia).
    cbn [lookup list_lookup mbind option_bind]. rewrite Hcrawl, Hsample.
    rewrite !print_ranks_spec, Hiter. cbn [mbind option_bind].
    rewrite print_ranks_spec.
    rewrite (sorted_keys_dom _ corpus) by (by rewrite dom_fmap_L).
    rewrite (sorted_keys_dom iterated corpus) by done.
    f_equal. rewrite <- app_assoc. reflexivity.
Qed.

(** X16. Called with one argument, [main] stops on an exception without
    having printed anything when the directory cannot be listed, when one
    of its [.html] entries cannot be read, or when it has no [.html] entry
    at all (the crawled corpus is then empty and [random.choice] raises). *)
Theorem main_stops_silently (program directory : string) (fs : file_system)
    (rng : nat → Q) (fuel : nat) :
  fs directory = None
  ∨ (∃ entries,
       fs directory = Some entries
       ∧ (¬ readable entries
          ∨ ∀ filename,
              filename ∈ entries.*1 → endswith filename ".html" = false)) →
  main findall format4 [program; directory] fs rng fuel = ([], Stopped).
Proof.
  intros Hcase. unfold main. rewrite decide_False by (cbn; lia).
  cbn [lookup list_lookup mbind option_bind].
  destruct (crawl findall fs directory) as [corpus|] eqn:Hcrawl; [|done].
  apply crawl_spec in Hcrawl as (entries & raw & Hfs & Hread & ->).
  destruct Hcase as [Hnone|(entries' & Hfs' & Hcase)]; [congruence|].
  rewrite Hfs in Hfs'. injection Hfs' as <-.
  destruct Hcase as [Hunreadable|Hnohtml].
  - exfalso. apply Hunreadable, (read_pages_is_Some findall entries ∅).
    by rewrite Hread.
  - assert (raw = ∅) as ->.
    { apply dom_empty_iff_L, set_eq. intros filename.
      rewrite (read_pages_dom findall entries ∅ raw) by done.
      rewrite dom_empty_L. split; [|by intros []%not_elem_of_empty].
      intros [[]%not_elem_of_empty|[Hhtml Hin]].
      rewrite (Hnohtml filename Hin) in Hhtml. done. }
    rewrite fmap_empty. unfold sample_pagerank, keys, choice.
    by rewrite map_to_list_empty.
Qed.

End main_properties.

(** * The further properties on the examples *)

Lemma readable_Forall (entries : list (string * option string)) :
  Forall (λ entry, endswith entry.1 ".html" = true → is_Some entry.2) entries →
  readable entries.
Proof.
  intros Hall filename file Hin. rewrite Forall_forall in Hall.
  apply (Hall (filename, file) Hin).
Qed.

(** The example directory can be crawled. *)
Lemma crawl_returns_witness :
  (∃ entries, example_fs "corpus" = Some entries ∧ readable entries)
  ∧ is_Some (crawl example_findall example_fs "corpus").
Proof.
  assert (∃ entries, example_fs "corpus" = Some entries ∧ readable entries)
    as Hreadable.
  { exists example_entries. split; [reflexivity|].
    apply readable_Forall. by_compute. }
  split; [exact Hreadable|].
  apply (crawl_returns example_findall example_fs "corpus"). exact Hreadable.
Defined.

(** The example directory crawls to the chain, which is a link graph. *)
Lemma crawl_link_graph_witness :
  crawl example_findall example_fs "corpus" = Some chain_corpus
  ∧ closed_universe chain_corpus ∧ no_self_links chain_corpus.
Proof.
  assert (crawl example_findall example_fs "corpus" = Some chain_corpus)
    as Hcrawl by (vm_compute; reflexivity).
  split; [exact Hcrawl|].
  apply (crawl_link_graph example_findall example_fs "corpus" chain_corpus).
  exact Hcrawl.
Defined.

(** The pages of the chain are the [.html] entries of the example
    directory. *)
Lemma crawl_pages_witness :
  example_fs "corpus" = Some example_entries
  ∧ crawl example_findall example_fs "corpus" = Some chain_corpus
  ∧ ∀ filename,
      filename ∈ dom chain_corpus
      ↔ endswith filename ".html" = true ∧ filename ∈ example_entries.*1.
Proof.
  assert (crawl example_findall example_fs "corpus" = Some chain_corpus)
    as Hcrawl by (vm_compute; reflexivity).
  split_and!; [reflexivity|exact Hcrawl|].
  apply (crawl_pages example_findall example_fs "corpus" example_entries
           chain_corpus); [reflexivity|exact Hcrawl].
Defined.

(** The second page of the example directory links to the third page, to
    itself and to a page that is not there; the third page is kept. *)
Lemma crawl_links_witness :
  example_fs "corpus" = Some example_entries
  ∧ NoDup example_entries.*1
  ∧ crawl example_findall example_fs "corpus" = Some chain_corpus
  ∧ ("b.html", Some "c.html
b.html
d.html")%string ∈ example_entries
  ∧ endswith "b.html" ".html" = true
  ∧ ∃ links,
      chain_corpus !! "b.html"%string = Some links
      ∧ ∀ link,
          link ∈ links
          ↔ link ∈ example_findall "c.html
b.html
d.html"
            ∧ link ≠ "b.html"%string ∧ link ∈ dom chain_corpus.
Proof.
  assert (crawl example_findall example_fs "corpus" = Some chain_corpus)
    as Hcrawl by (vm_compute; reflexivity).
  split_and!; [reflexivity|by_compute|exact Hcrawl|by_compute|reflexivity|].
  apply (crawl_links example_findall example_fs "corpus" example_entries
           chain_corpus); [reflexivity|by_compute|exact Hcrawl|by_compute|
                           reflexivity].
Defined.

(** The entry [notes.txt] of the example directory makes no difference. *)
Lemma crawl_ignores_other_entries_witness :
  example_fs "corpus" = Some example_entries
  ∧ example_fs_pages "pages" = Some (take 3 example_entries)
  ∧ filter (λ entry, endswith entry.1 ".html" = true) example_entries
    = filter (λ entry, endswith entry.1 ".html" = true)
        (take 3 example_entries)
  ∧ crawl example_findall example_fs "corpus"
    = crawl example_findall example_fs_pages "pages".
Proof.
  split_and!; [reflexivity|reflexivity|vm_compute; reflexivity|].
  apply (crawl_ignores_other_entries example_findall example_fs
           example_fs_pages "corpus" "pages" example_entries
           (take 3 example_entries));
    [reflexivity|reflexivity|vm_compute; reflexivity].
Defined.

(** The first page of the chain and its one link are pages of the chain. *)
Lemma transition_model_returns_witness :
  (∃ links,
     chain_corpus !! "a.html"%string = Some links
     ∧ links ⊆ dom chain_corpus)
  ∧ is_Some (transition_model chain_corpus "a.html"%string DAMPING).
Proof.
  assert (∃ links,
            chain_corpus !! "a.html"%string = Some links
            ∧ links ⊆ dom chain_corpus) as Hlinks.
  { exists {[ "b.html"%string ]}. split; [vm_compute; reflexivity|by_compute]. }
  split; [exact Hlinks|].
  apply (transition_model_returns chain_corpus "a.html"%string DAMPING).
  exact Hlinks.
Defined.

(** Positive probabilities on the chain. *)
Lemma transition_model_positive_witness :
  closed_universe chain_corpus
  ∧ "a.html"%string ∈ dom chain_corpus
  ∧ 0 <= DAMPING
  ∧ DAMPING < 1
  ∧ ∃ dist,
      transition_model chain_corpus "a.html"%string DAMPING = Some dist
      ∧ ∀ q, q ∈ dom chain_corpus → ∃ p, dist !! q = Some p ∧ 0 < p.
Proof.
  split_and!; [by_compute|by_compute|discriminate|reflexivity|].
  apply (transition_model_positive chain_corpus "a.html"%string DAMPING);
    solve [by_compute|discriminate|reflexivity].
Defined.

(** Sampling on the chain returns ranks. *)
Lemma sample_pagerank_returns_witness :
  closed_universe chain_corpus
  ∧ 0 < DAMPING
  ∧ DAMPING < 1
  ∧ (is_Some (sample_pagerank chain_corpus DAMPING SAMPLES constant_rng)
     ↔ chain_corpus ≠ ∅ ∧ SAMPLES ≠ 0%Z).
Proof.
  split_and!; [by_compute|reflexivity|reflexivity|].
  apply (sample_pagerank_returns chain_corpus DAMPING SAMPLES constant_rng);
    solve [by_compute|reflexivity].
Defined.

(** The range of the sampled ranks on the chain. *)
Lemma sample_pagerank_ranks_witness :
  closed_universe chain_corpus
  ∧ chain_corpus ≠ ∅
  ∧ (1 ≤ SAMPLES)%Z
  ∧ ∃ ranks,
      sample_pagerank chain_corpus DAMPING SAMPLES constant_rng = Some ranks
      ∧ dom ranks = dom chain_corpus
      ∧ ∀ page rank, ranks !! page = Some rank → 0 <= rank ∧ rank < 1.
Proof.
  split_and!; [by_compute..|].
  apply (sample_pagerank_ranks chain_corpus DAMPING SAMPLES constant_rng);
    by_compute.
Defined.

(** The range of the iterated ranks on the chain. *)
Lemma iterate_pagerank_ranks_witness :
  closed_universe chain_corpus
  ∧ chain_corpus ≠ ∅
  ∧ 0 < DAMPING
  ∧ DAMPING < 1
  ∧ ∃ k ranks,
      (∀ fuel, (k < fuel)%nat →
         iterate_pagerank fuel chain_corpus DAMPING = Some ranks)
      ∧ dom ranks = dom chain_corpus
      ∧ ∀ page rank,
          ranks !! page = Some rank →
          (1 - DAMPING) / Qn (size chain_corpus) <= rank ∧ rank <= 1.
Proof.
  split_and!; [by_compute|by_compute|reflexivity|reflexivity|].
  apply (iterate_pagerank_ranks chain_corpus DAMPING);
    solve [by_compute|reflexivity].
Defined.

(** One round on the chain, from ranks that total 3. *)
Lemma round_total_witness :
  closed_universe chain_corpus
  ∧ chain_corpus ≠ ∅
  ∧ dom ones_on_chain = dom chain_corpus
  ∧ ∃ condition page_rank' calculated_pr',
      round chain_corpus DAMPING (ones_on_chain, ∅)
      = Some (condition, (page_rank', calculated_pr'))
      ∧ dom page_rank' = dom chain_corpus
      ∧ total page_rank' == (1 - DAMPING) + DAMPING * total ones_on_chain.
Proof.
  split_and!; [by_compute..|].
  apply (round_total chain_corpus DAMPING ones_on_chain ∅); by_compute.
Defined.

(** One round on the chain, from the initial ranks and from all ones. *)
Lemma round_contraction_witness :
  closed_universe chain_corpus
  ∧ chain_corpus ≠ ∅
  ∧ 0 <= DAMPING
  ∧ dom (iterate_init chain_corpus).1 = dom chain_corpus
  ∧ dom ones_on_chain = dom chain_corpus
  ∧ ∃ cond_a cond_b a' b' calc_a' calc_b',
      round chain_corpus DAMPING ((iterate_init chain_corpus).1, ∅)
      = Some (cond_a, (a', calc_a'))
      ∧ round chain_corpus DAMPING (ones_on_chain, ∅)
        = Some (cond_b, (b', calc_b'))
      ∧ distance chain_corpus a' b'
        <= DAMPING
           * distance chain_corpus (iterate_init chain_corpus).1 ones_on_chain.
Proof.
  split_and!; [by_compute|by_compute|discriminate|by_compute|by_compute|].
  apply (round_contraction chain_corpus DAMPING (iterate_init chain_corpus).1
           ones_on_chain ∅ ∅);
    solve [by_compute|discriminate].
Defined.

(** Three pages without links: every page gets the rank 1/3 in the first
    round. *)
Lemma iterate_pagerank_no_links_witness :
  map_Forall (λ _ links, links = ∅) unlinked_corpus
  ∧ unlinked_corpus ≠ ∅
  ∧ 0 < DAMPING
  ∧ DAMPING < 1
  ∧ ∃ ranks,
      iterate_pagerank 1 unlinked_corpus DAMPING = Some ranks
      ∧ dom ranks = dom unlinked_corpus
      ∧ ∀ page rank,
          ranks !! page = Some rank → rank == 1 / Qn (size unlinked_corpus).
Proof.
  split_and!; [by_compute|by_compute|reflexivity|reflexivity|].
  apply (iterate_pagerank_no_links unlinked_corpus DAMPING 0);
    solve [by_compute|reflexivity].
Defined.

(** [main] on the example directory. *)
Lemma main_prints_witness :
  example_fs "corpus" = Some example_entries
  ∧ readable example_entries
  ∧ (∃ filename,
       filename ∈ example_entries.*1 ∧ endswith filename ".html" = true)
  ∧ ∃ corpus sampled iterated pages k,
      crawl example_findall example_fs "corpus" = Some corpus
      ∧ sample_pagerank corpus DAMPING SAMPLES constant_rng = Some sampled
      ∧ Sorted String.le pages
      ∧ NoDup pages
      ∧ (∀ filename,
           filename ∈ pages
           ↔ endswith filename ".html" = true
             ∧ filename ∈ example_entries.*1)
      ∧ ∀ fuel, (k < fuel)%nat →
          iterate_pagerank fuel corpus DAMPING = Some iterated
          ∧ main example_findall example_format ["pagerank.py"; "corpus"]%string
              example_fs constant_rng fuel
            = ("PageRank Results from Sampling (n = 10000)"%string
                 :: ((λ page,
                        rank_line example_format page (rank_of sampled page))
                       <$> pages)
               ++ "PageRank Results from Iteration"%string
                 :: ((λ page,
                        rank_line example_format page (rank_of iterated page))
                       <$> pages),
               Done).
Proof.
  assert (readable example_entries) as Hreadable
    by (apply readable_Forall; by_compute).
  assert (∃ filename,
            filename ∈ example_entries.*1 ∧ endswith filename ".html" = true)
    as Hpage by (exists "a.html"%string; split; [by_compute|reflexivity]).
  split_and!; [reflexivity|exact Hreadable|exact Hpage|].
  apply (main_prints example_findall example_format "pagerank.py" "corpus"
           example_fs example_entries constant_rng);
    [reflexivity|exact Hreadable|exact Hpage].
Defined.

(** [main] on a directory that is not there. *)
Lemma main_stops_silently_witness :
  example_fs "nowhere" = None
  ∧ main example_findall example_format ["pagerank.py"; "nowhere"]%string
      example_fs constant_rng 0
    = ([], Stopped).
Proof.
  split; [reflexivity|].
  apply (main_stops_silently example_findall example_format "pagerank.py"
           "nowhere" example_fs constant_rng 0).
  left. reflexivity.
Defined.

(** * Further properties: a bound on the number of rounds *)

Section round_bound.
Context {K : Type} `{!EqDecision K} `{!Countable K}.

Implicit Types (corpus : gmap K (gset K)).
Implicit Types (page_rank : gmap K Q).

Lemma Qpow_small_at D B k :
  0 <= D → D < 1 → 0 <= B → 1000 * B / (1 - D) <= Qn k →
  Qpow D k * B <= tolerance.
Proof.
  intros H0 H1 HB Hk.
  pose proof (Qpow_bernoulli D k H0 ltac:(lra)) as Hbern.
  pose proof (Qpow_nonneg D k H0) as Hp.
  assert (1000 * B <= Qn k * (1 - D)) as Hk'.
  { setoid_replace (1000 * B) with (1000 * B / (1 - D) * (1 - D))
      using relation Qeq by (field; lra).
    apply Qmult_le_compat_r; [done|lra]. }
  assert (Qpow D k * (1000 * B) <= Qpow D k * (Qn k * (1 - D))) as Hmul.
  { rewrite !(Qmult_comm (Qpow D k)). by apply Qmult_le_compat_r. }
  unfold tolerance. lra.
Qed.

Lemma Qabs_diff_le_sum (x y : Q) : 0 <= x → 0 <= y → Qabs (x - y) <= x + y.
Proof. intros Hx Hy. apply Qabs_Qle_condition. split; lra. Qed.

Lemma first_round_distance corpus D :
  closed_universe corpus → corpus ≠ ∅ → 0 <= D → D <= 1 →
  distance corpus (iterate_init corpus).1
    (next_ranks corpus D (iterate_init corpus).1) <= 2.
Proof.
  intros Hclosed Hne H0 H1.
  set (init := (iterate_init corpus).1).
  assert (dom init = dom corpus) as Hinit by apply dom_iterate_init.
  assert (∀ Q, 0 <= rank_of init Q) as Hpos.
  { intros Q. unfold init. rewrite rank_of_iterate_init.
    case_decide; [apply Qn_inv_nonneg|lra]. }
  assert (∀ Q, 0 <= rank_of (next_ranks corpus D init) Q) as Hpos'.
  { apply (snapshots_nonneg corpus D 1 init); done. }
  eapply Qle_trans.
  { apply (Qsum_le _ (λ P, rank_of init P
                           + rank_of (next_ranks corpus D init) P)).
    intros P _. by apply Qabs_diff_le_sum. }
  rewrite Qsum_plus, <- !(total_over_corpus corpus)
    by (done || by apply dom_next_ranks).
  rewrite total_next_ranks by done.
  unfold init. rewrite total_iterate_init by done. lra.
Qed.

(** X17. On a non-empty link graph and with a damping factor [d] in (0,1),
    [iterate_pagerank] never needs more than [ceil(2000 / (1 - d)) + 1]
    rounds, whatever the graph: with fuel for that many rounds it returns
    its result. *)
Theorem iterate_pagerank_round_bound corpus (damping_factor : Q) :
  closed_universe corpus → corpus ≠ ∅ →
  0 < damping_factor → damping_factor < 1 →
  ∃ ranks,
    ∀ fuel,
      (Z.to_nat (Qceiling (2000 / (1 - damping_factor))) < fuel)%nat →
      iterate_pagerank fuel corpus damping_factor = Some ranks.
Proof.
  intros Hclosed Hne H0 H1.
  set (k := Z.to_nat (Qceiling (2000 / (1 - damping_factor)))).
  set (init := (iterate_init corpus).1).
  set (B := distance corpus init (next_ranks corpus damping_factor init)).
  assert (dom init = dom corpus) as Hinit by apply dom_iterate_init.
  assert (B <= 2) as HB by (apply first_round_distance; [done|done|lra|lra]).
  assert (0 <= B) as HB0 by apply distance_nonneg.
  assert (2000 / (1 - damping_factor) <= Qn k) as Hk.
  { eapply Qle_trans; [apply Qle_ceiling|]. unfold k, Qn.
    rewrite <- Zle_Qle. lia. }
  assert (Qpow damping_factor k * B <= tolerance) as Hsmall.
  { apply Qpow_small_at; [lra|done|done|].
    eapply Qle_trans; [|exact Hk].
    apply Qle_shift_div_l; [lra|].
    setoid_replace (1000 * B / (1 - damping_factor) * (1 - damping_factor))
      with (1000 * B) using relation Qeq by (field; lra).
    lra. }
  assert (¬ changed (snapshots corpus damping_factor k init)
                    (snapshots corpus damping_factor (S k) init)) as Hstop.
  { intros Hch%(changed_distance corpus); [|by apply dom_snapshots].
    pose proof (distance_snapshots corpus damping_factor k init
                  Hclosed Hne ltac:(lra) Hinit).
    fold B in H. lra. }
  destruct (while_condition_spec corpus damping_factor k init
              (iterate_init corpus).2 Hinit Hstop)
    as (j & Hj & _ & Hfuel).
  exists (snapshots corpus damping_factor (S j) init). intros fuel Hlt.
  rewrite iterate_pagerank_unfold by done.
  destruct (iterate_init corpus) as [i c] eqn:Hi. cbn [fst snd] in *.
  subst init. rewrite Hfuel, decide_True by lia. done.
Qed.

End round_bound.

(** The bound on the chain. *)
Lemma iterate_pagerank_round_bound_witness :
  closed_universe chain_corpus
  ∧ chain_corpus ≠ ∅
  ∧ 0 < DAMPING
  ∧ DAMPING < 1
  ∧ ∃ ranks,
      ∀ fuel,
        (Z.to_nat (Qceiling (2000 / (1 - DAMPING))) < fuel)%nat →
        iterate_pagerank fuel chain_corpus DAMPING = Some ranks.
Proof.
  split_and!; [by_compute|by_compute|reflexivity|reflexivity|].
  apply (iterate_pagerank_round_bound chain_corpus DAMPING);
    solve [by_compute|reflexivity].
Defined.
